(** * IPFIX / NetFlow v9 export encoder (gopacket layer [ipfix.go])

    A shallow embedding of the encoder of [layers/ipfix.go]: fields,
    templates, records, sets and the packet, with the in-place writes
    into the byte region obtained from the serialization buffer.

    Conventions.
    - Go's [uint16] and [uint32] values are integers of [Z]; a conversion
      [uint16(n)] is written out as a reduction modulo [2^16].
    - Go's [int] (lengths, write cursors) is an integer of [Z]; no length
      that occurs here comes near the 64-bit bound.
    - A byte slice into the reserved region is the pair of the region
      (threaded as state) and the slice's start offset in it.  A slice
      expression or an index that leaves the region is a run-time fault
      ([Panic]).  The capacity of a slice is taken to be its length.
    - Methods with a pointer receiver that assign to a field return the
      updated receiver next to their result. *)

From Stdlib Require Import String Strings.Byte.
From Stdlib Require Import ZArith List Lia Bool.
Import ListNotations.
Local Open Scope Z_scope.

Set Implicit Arguments.

(** ** Integers and bytes *)

(** [len] is Go's [len] on a slice. *)
Definition len {A : Type} (l : list A) : Z := Z.of_nat (length l).

(** The conversion [uint16(n)] of a non-negative [int]. *)
Definition uint16 (n : Z) : Z := n mod 65536.

(** The conversion [byte(v)]: the low eight bits. *)
Definition byte_of_Z (v : Z) : byte :=
  match Byte.of_N (Z.to_N (v mod 256)) with
  | Some b => b
  | None => x00
  end.

Definition Z_of_byte (b : byte) : Z := Z.of_N (Byte.to_N b).

(** [binary.BigEndian.PutUint16] and [PutUint32]: the bytes stored, in
    the order of increasing address. *)
Definition be16 (v : Z) : list byte :=
  [byte_of_Z (Z.shiftr v 8); byte_of_Z v].

Definition be32 (v : Z) : list byte :=
  [byte_of_Z (Z.shiftr v 24); byte_of_Z (Z.shiftr v 16);
   byte_of_Z (Z.shiftr v 8); byte_of_Z v].

(** [binary.BigEndian.Uint16], as [IPFixHeader.GetVer] reads it. *)
Definition Uint16 (bs : list byte) : Z :=
  match bs with
  | b0 :: b1 :: _ => Z.lor (Z.shiftl (Z_of_byte b0) 8) (Z_of_byte b1)
  | _ => 0
  end.

(** ** The reserved region *)

(** A byte of the region: its current value and the number of times it
    has been stored to since the region was reserved. *)
Record cell : Type := Cell { val : byte; hits : nat }.

Definition mem : Type := list cell.

Definition fresh (bs : list byte) : mem := map (fun b => Cell b 0) bs.
Definition vals (d : mem) : list byte := map val d.

Fixpoint stores (d : mem) : Z :=
  match d with
  | [] => 0
  | c :: d' => Z.of_nat (hits c) + stores d'
  end.

Definition hit (b : byte) (c : cell) : cell := Cell b (S (hits c)).

(** Overwrite a prefix of [d] with [bs]; what does not fit is dropped,
    as Go's [copy] does. *)
Fixpoint poke (bs : list byte) (d : mem) : mem :=
  match bs, d with
  | b :: bs', c :: d' => hit b c :: poke bs' d'
  | _, _ => d
  end.

Definition store_at (pos : nat) (bs : list byte) (d : mem) : mem :=
  firstn pos d ++ poke bs (skipn pos d).

(** ** Errors, faults and the write monad *)

(** A Go [error] value made by [errors.New]. *)
Inductive error : Type := errors_New (msg : string).

Inductive outcome (A : Type) : Type :=
| Ok (a : A)
| Err (e : error)
| Panic.
Arguments Err {A} e.
Arguments Panic {A}.

Definition M (A : Type) : Type := mem -> outcome (A * mem).

Definition ret {A : Type} (a : A) : M A := fun d => Ok (a, d).

Definition bind {A B : Type} (m : M A) (k : A -> M B) : M B :=
  fun d =>
    match m d with
    | Ok (a, d') => k a d'
    | Err e => Err e
    | Panic => Panic
    end.

Notation "x <- m ;; k" := (bind m (fun x => k))
  (at level 61, m at next level, right associativity).
Notation "m ;; k" := (bind m (fun _ => k))
  (at level 61, right associativity).

(** A slice [data[base:]] of the region, given by [base]. *)
Definition slice : Type := Z.

(** The slice expression [b[k:]]. *)
Definition reslice (b : slice) (k : Z) : M slice :=
  fun d => if (0 <=? k) && (b + k <=? len d) then Ok (b + k, d) else Panic.

(** A store of [bs] through the slice expression [b[lo:hi]], which
    faults when [hi] is past the end of [b]; a slice never starts before
    the region. *)
Definition put (b : slice) (lo hi : Z) (bs : list byte) : M unit :=
  fun d =>
    if (0 <=? b + lo) && (b + hi <=? len d)
    then Ok (tt, store_at (Z.to_nat (b + lo)) bs d)
    else Panic.

Definition PutUint16 (b : slice) (lo hi : Z) (v : Z) : M unit :=
  put b lo hi (be16 v).

Definition PutUint32 (b : slice) (lo hi : Z) (v : Z) : M unit :=
  put b lo hi (be32 v).

(** [copy(b, src)]: copies [min(len(b), len(src))] bytes, never faults. *)
Definition copy (b : slice) (src : list byte) : M unit :=
  fun d => Ok (tt, store_at (Z.to_nat b) src d).

(** ** IPFixField *)

Module IPFixField.

Record t : Type := mk {
  Name : string;
  Type_ : Z;            (* uint16 *)
  Length : Z;           (* uint16 *)
  EnterpriseNumber : Z; (* uint32 *)
  Offset : Z            (* uint16 *)
}.

Definition IsEnterprise (f : t) : bool :=
  Z.land (Type_ f) 0x8000 =? 0x8000.

Definition Len (f : t) : Z :=
  let n := 4 in
  if IsEnterprise f then n + 4 else n.

Definition encode (f : t) (b : slice) : M unit :=
  PutUint16 b 0 2 (Type_ f) ;;
  PutUint16 b 2 4 (Length f) ;;
  (if IsEnterprise f
   then PutUint32 b 4 8 (EnterpriseNumber f)
   else ret tt) ;;
  ret tt.

(** The bytes of a field on the wire, as the protocol lays them out. *)
Definition wire (f : t) : list byte :=
  be16 (Type_ f) ++ be16 (Length f) ++
  (if Z.testbit (Type_ f) 15 then be32 (EnterpriseNumber f) else []).

End IPFixField.

(** ** IPFixSetEntry: the interface of set entries *)

Class IPFixSetEntry (A : Type) : Type := {
  entry_Len : A -> Z;
  entry_encode : A -> slice -> M unit
}.

(** ** IPFixTemplate *)

Module IPFixTemplate.

Record t : Type := mk {
  ID : Z;          (* uint16 *)
  FieldCount : Z;  (* uint16 *)
  Fields : list IPFixField.t
}.

Definition NewIPFixTemplate (id : Z) (fields : list IPFixField.t) : t :=
  {| ID := id; FieldCount := uint16 (len fields); Fields := fields |}.

Definition Len (t0 : t) : Z :=
  fold_left (fun n f => n + IPFixField.Len f) (Fields t0) 4.

(** The loop of [encode]: [offset] is the cursor inside [b]. *)
Fixpoint encode_fields (fs : list IPFixField.t) (b : slice) (offset : Z)
  : M unit :=
  match fs with
  | [] => ret tt
  | f :: fs' =>
      b' <- reslice b offset ;;
      IPFixField.encode f b' ;;
      encode_fields fs' b (offset + IPFixField.Len f)
  end.

Definition encode (t0 : t) (b : slice) : M unit :=
  PutUint16 b 0 2 (ID t0) ;;
  PutUint16 b 2 4 (FieldCount t0) ;;
  encode_fields (Fields t0) b 4.

Definition wire (t0 : t) : list byte :=
  be16 (ID t0) ++ be16 (FieldCount t0) ++
  concat (map IPFixField.wire (Fields t0)).

End IPFixTemplate.

#[export] Instance IPFixTemplate_entry : IPFixSetEntry IPFixTemplate.t :=
  {| entry_Len := IPFixTemplate.Len; entry_encode := IPFixTemplate.encode |}.

(** ** IPFixRecord *)

Module IPFixRecord.

Record t : Type := mk { Data : list byte }.

Definition Len (r : t) : Z := len (Data r).

Definition encode (r : t) (b : slice) : M unit :=
  copy b (Data r) ;;
  ret tt.

Definition wire (r : t) : list byte := Data r.

End IPFixRecord.

#[export] Instance IPFixRecord_entry : IPFixSetEntry IPFixRecord.t :=
  {| entry_Len := IPFixRecord.Len; entry_encode := IPFixRecord.encode |}.

(** The values held in an [IPFixSetEntries] slice: the two types of the
    package that implement the interface. *)
Inductive SetEntry : Type :=
| OfTemplate (t0 : IPFixTemplate.t)
| OfRecord (r : IPFixRecord.t).

Module Entry.

Definition Len (e : SetEntry) : Z :=
  match e with
  | OfTemplate t0 => entry_Len t0
  | OfRecord r => entry_Len r
  end.

Definition encode (e : SetEntry) (b : slice) : M unit :=
  match e with
  | OfTemplate t0 => entry_encode t0 b
  | OfRecord r => entry_encode r b
  end.

Definition wire (e : SetEntry) : list byte :=
  match e with
  | OfTemplate t0 => IPFixTemplate.wire t0
  | OfRecord r => IPFixRecord.wire r
  end.

End Entry.

(** ** IPFixSet *)

Module IPFixSet.

Record t : Type := mk {
  ID : Z;      (* uint16 *)
  Length : Z;  (* uint16 *)
  SetEntries : list SetEntry
}.

Definition set_Length (s : t) (v : Z) : t :=
  {| ID := ID s; Length := v; SetEntries := SetEntries s |}.

(** [Len] assigns [s.Length] and returns the unreduced sum. *)
Definition Len (s : t) : Z * t :=
  let n := fold_left (fun n e => n + Entry.Len e) (SetEntries s) 4 in
  (n, set_Length s (uint16 n)).

Definition IsDataSet (s : t) : bool := 255 <? ID s.

Fixpoint encode_entries (es : list SetEntry) (b : slice) (offset : Z)
  : M unit :=
  match es with
  | [] => ret tt
  | e :: es' =>
      b' <- reslice b offset ;;
      Entry.encode e b' ;;
      encode_entries es' b (offset + Entry.Len e)
  end.

Definition encode (s : t) (b : slice) : M unit :=
  PutUint16 b 0 2 (ID s) ;;
  PutUint16 b 2 4 (Length s) ;;
  encode_entries (SetEntries s) b 4.

(** The bytes of a set on the wire: the header as stored, then the
    entries in order. *)
Definition wire (s : t) : list byte :=
  be16 (ID s) ++ be16 (Length s) ++ concat (map Entry.wire (SetEntries s)).

End IPFixSet.

(** ** The serialization buffer *)

Module SerializeBuffer.

(** Modelled from the spec: [gopacket.SerializeBuffer], the growable
    buffer of the surrounding framework, is not part of this package.
    [PrependBytes num] either fails with the buffer's error or reserves
    [num] bytes at the front of the buffer and returns them; their
    content is indeterminate ([junk]). *)
Record t : Type := mk {
  junk : nat -> byte;
  refuse : Z -> option error
}.

Definition PrependBytes (b : t) (num : Z) : error + list byte :=
  match refuse b num with
  | Some e => inl e
  | None => inr (map (junk b) (seq 0 (Z.to_nat num)))
  end.

End SerializeBuffer.

(** ** IPFix *)

Definition IpfixHeaderLenVer10 : Z := 16.
Definition IpfixHeaderLenVer9 : Z := 20.

Module IPFix.

(** The embedded [BaseLayer] is never read or written by this file and
    is left out. *)
Record t : Type := mk {
  Ver : Z;        (* uint16 *)
  Length : Z;     (* uint16 *)
  SysUpTime : Z;  (* uint32, only in ver 9 *)
  Timestamp : Z;  (* uint32 *)
  FlowSeq : Z;    (* uint32 *)
  DomainID : Z;   (* uint32 *)
  SourceID : Z;   (* uint32, only in ver 9 *)
  Sets : list IPFixSet.t
}.

(** The loop of [Len]: every [i.Sets[j].Len()] updates the set in
    place. *)
Fixpoint Len_sets (n : Z) (ss : list IPFixSet.t) : Z * list IPFixSet.t :=
  match ss with
  | [] => (n, [])
  | s :: ss' =>
      let '(k, s') := IPFixSet.Len s in
      let '(m, r) := Len_sets (n + k) ss' in
      (m, s' :: r)
  end.

Definition Len (i : t) : Z * t :=
  let n := if Ver i =? 9 then IpfixHeaderLenVer9 else IpfixHeaderLenVer10 in
  let '(n, ss) := Len_sets n (Sets i) in
  (n, {| Ver := Ver i; Length := uint16 n; SysUpTime := SysUpTime i;
         Timestamp := Timestamp i; FlowSeq := FlowSeq i;
         DomainID := DomainID i; SourceID := SourceID i; Sets := ss |}).

(** The last loop of [SerializeTo]: the cursor advances by the stored
    [s.Length]. *)
Fixpoint encode_sets (ss : list IPFixSet.t) (data : slice) (offset : Z)
  : M unit :=
  match ss with
  | [] => ret tt
  | s :: ss' =>
      b <- reslice data offset ;;
      IPFixSet.encode s b ;;
      encode_sets ss' data (offset + IPFixSet.Length s)
  end.

(** What [SerializeTo] does with the reserved region [data]. *)
Definition fill (i : t) (data : slice) : M unit :=
  let offset := IpfixHeaderLenVer10 in
  PutUint16 data 0 2 (Ver i) ;;
  (if Ver i =? 10 then
     PutUint16 data 2 4 (Length i) ;;
     PutUint32 data 4 8 (Timestamp i) ;;
     PutUint32 data 8 12 (FlowSeq i) ;;
     PutUint32 data 12 16 (DomainID i)
   else ret tt) ;;
  offset <- (if Ver i =? 9 then
               let setCount :=
                 fold_left (fun c s => c + len (IPFixSet.SetEntries s))
                           (Sets i) 0 in
               PutUint16 data 2 4 (uint16 setCount) ;;
               PutUint32 data 4 8 (SysUpTime i) ;;
               PutUint32 data 8 12 (Timestamp i) ;;
               PutUint32 data 12 16 (FlowSeq i) ;;
               PutUint32 data 16 20 (SourceID i) ;;
               ret (offset + 4)
             else ret offset) ;;
  encode_sets (Sets i) data offset.

(** [SerializeTo] returns the reserved region as it has been written
    (or the error, or the fault) and the packet with its length fields
    assigned. *)
Definition SerializeTo (i : t) (b : SerializeBuffer.t) : outcome mem * t :=
  let '(plen, i') := Len i in
  match SerializeBuffer.PrependBytes b plen with
  | inl err => (Err err, i')
  | inr data =>
      (match fill i' 0 (fresh data) with
       | Ok (_, d) => Ok d
       | Err e => Err e
       | Panic => Panic
       end, i')
  end.

End IPFix.

(** ** decodeIPFix *)

(** The packet builder of the framework is kept abstract: [decodeIPFix]
    returns the error and the builder as it leaves it. *)
Definition decodeIPFix {PacketBuilder : Type}
  (data : list byte) (p : PacketBuilder) : option error * PacketBuilder :=
  (Some (errors_New "Not Implemented yet"), p).

(** ** Specification-level notions *)

(** [writes m b bs]: run in any region with room for [bs] at offset [b],
    the computation [m] succeeds and its whole effect is to store [bs]
    at [b]. *)
Definition writes (m : M unit) (b : Z) (bs : list byte) : Prop :=
  forall d, 0 <= b -> b + len bs <= len d ->
            m d = Ok (tt, store_at (Z.to_nat b) bs d).

(** The sum computed by the loops of the [Len] methods. *)
Definition total {A : Type} (f : A -> Z) (l : list A) : Z :=
  fold_right (fun a n => f a + n) 0 l.

(** The region is written exactly once everywhere. *)
Definition once (d : mem) : Prop := Forall (fun c => hits c = 1%nat) d.

(** The slice expression [l[lo:hi]] on a list of bytes. *)
Definition bytes_at (lo hi : nat) (l : list byte) : list byte :=
  firstn (hi - lo) (skipn lo l).

(** The byte length of a set, and the set as [IPFixSet.Len] leaves it. *)
Definition set_len (s : IPFixSet.t) : Z := fst (IPFixSet.Len s).
Definition finalize (s : IPFixSet.t) : IPFixSet.t := snd (IPFixSet.Len s).

(** The number of entries of a packet, over all its sets. *)
Definition entry_count (i : IPFix.t) : Z :=
  total (fun s => len (IPFixSet.SetEntries s)) (IPFix.Sets i).

(** The two header layouts of the protocol. *)
Definition header10 (i : IPFix.t) : list byte :=
  be16 (IPFix.Ver i) ++ be16 (IPFix.Length i) ++ be32 (IPFix.Timestamp i) ++
  be32 (IPFix.FlowSeq i) ++ be32 (IPFix.DomainID i).

Definition header9 (i : IPFix.t) : list byte :=
  be16 (IPFix.Ver i) ++ be16 (uint16 (entry_count i)) ++
  be32 (IPFix.SysUpTime i) ++ be32 (IPFix.Timestamp i) ++
  be32 (IPFix.FlowSeq i) ++ be32 (IPFix.SourceID i).

(** What [SerializeTo] writes before the sets, and where the sets start. *)
Definition header (i : IPFix.t) : list byte :=
  if IPFix.Ver i =? 10 then header10 i
  else if IPFix.Ver i =? 9 then header9 i
  else be16 (IPFix.Ver i).

Definition header_end (i : IPFix.t) : Z :=
  if IPFix.Ver i =? 9 then IpfixHeaderLenVer9 else IpfixHeaderLenVer10.

(** The sets laid out in order from [offset], each at the cursor that the
    stored lengths of the sets before it give. *)
Fixpoint place_sets (offset : Z) (ss : list IPFixSet.t) (d : mem) : mem :=
  match ss with
  | [] => d
  | s :: ss' =>
      place_sets (offset + IPFixSet.Length s) ss'
                 (store_at (Z.to_nat offset) (IPFixSet.wire s) d)
  end.

(** A set whose stored length is at most its byte length. *)
Definition short_stored (s : IPFixSet.t) : Prop :=
  0 <= IPFixSet.Length s <= len (IPFixSet.wire s).

(** ** Concrete packets *)

(** A buffer that never refuses and hands out bytes holding [0xff]. *)
Definition plain_buffer : SerializeBuffer.t :=
  SerializeBuffer.mk (fun _ => xff) (fun _ => None).

(** Version 10, timestamp 1000, flow sequence 1, domain 100, no set. *)
Definition packet_v10_empty : IPFix.t :=
  IPFix.mk 10 0 0 1000 1 100 0 [].

(** An enterprise-specific field: type 0x8005, length 4, enterprise 12345. *)
Definition field_enterprise : IPFixField.t :=
  IPFixField.mk EmptyString 0x8005 4 12345 0.

Definition field_plain : IPFixField.t :=
  IPFixField.mk EmptyString 1 4 0 0.

(** A data set and a template set of a few bytes. *)
Definition set_small : IPFixSet.t :=
  IPFixSet.mk 256 0 [OfRecord (IPFixRecord.mk [x01; x02; x03; x04])].

Definition set_template : IPFixSet.t :=
  IPFixSet.mk 2 0
    [OfTemplate (IPFixTemplate.NewIPFixTemplate 256
                   [field_plain; field_enterprise])].

Definition packet_v10_one_set : IPFix.t :=
  IPFix.mk 10 0 0 1000 1 100 0 [set_small].

Definition packet_v10_small : IPFix.t :=
  IPFix.mk 10 0 0 1000 1 100 0 [set_small; set_template].

(** Version 9 with three entries, grouped as two sets. *)
Definition packet_v9_small : IPFix.t :=
  IPFix.mk 9 0 7 1000 1 0 5
    [IPFixSet.mk 256 0 [OfRecord (IPFixRecord.mk [x01]);
                        OfRecord (IPFixRecord.mk [x02; x03])];
     IPFixSet.mk 257 0 [OfRecord (IPFixRecord.mk [])]].

(** A set of one record of 65532 bytes: 65536 bytes with its header. *)
Definition set_64k : IPFixSet.t :=
  IPFixSet.mk 256 0
    [OfRecord (IPFixRecord.mk (repeat x00 (Z.to_nat 65532)))].

(** 65536 fields of a template. *)
Definition fields_64k : list IPFixField.t :=
  repeat field_plain (Z.to_nat 65536).

(** Version 9 with one set of 65536 empty records. *)
Definition packet_v9_64k : IPFix.t :=
  IPFix.mk 9 0 0 0 0 0 0
    [IPFixSet.mk 256 0
       (repeat (OfRecord (IPFixRecord.mk [])) (Z.to_nat 65536))].

(** Version 10 with a set of 65532 bytes and a packet of 65536 bytes. *)
Definition packet_v10_64k : IPFix.t :=
  IPFix.mk 10 0 0 0 0 0 0
    [IPFixSet.mk 256 0
       [OfRecord (IPFixRecord.mk (repeat x00 (Z.to_nat 65516)))]].

(** ** IPFixHeader: in-place change of a serialized header *)

Module IPFixHeader.

(** The load of [o[lo:hi]], which faults like a store through it. *)
Definition load (o : slice) (lo hi : Z) : M (list byte) :=
  fun d =>
    if (0 <=? o + lo) && (o + hi <=? len d)
    then Ok (bytes_at (Z.to_nat (o + lo)) (Z.to_nat (o + hi)) (vals d), d)
    else Panic.

Definition GetVer (o : slice) : M Z :=
  bs <- load o 0 2 ;;
  ret (Uint16 bs).

Definition SetLength (o : slice) (length : Z) : M unit :=
  PutUint16 o 2 4 length.

Definition SetCount (o : slice) (count : Z) : M unit :=
  PutUint16 o 2 4 count.

Definition SetSysUptime (o : slice) (sysUpTime : Z) : M unit :=
  PutUint32 o 4 8 sysUpTime.

Definition SetSourceID (o : slice) (sourceID : Z) : M unit :=
  PutUint32 o 16 20 sourceID.

Definition SetTimestamp (o : slice) (ts : Z) : M unit :=
  ver <- GetVer o ;;
  let off := if ver =? 9 then 8 else 4 in
  PutUint32 o off (off + 4) ts.

Definition SetFlowSeq (o : slice) (fs : Z) : M unit :=
  ver <- GetVer o ;;
  let off := if ver =? 9 then 12 else 8 in
  PutUint32 o off (off + 4) fs.

End IPFixHeader.

(** The setters, on a header that starts the region. *)
Definition header_setters (v : Z) : list (M unit) :=
  [IPFixHeader.SetLength 0 v; IPFixHeader.SetCount 0 v;
   IPFixHeader.SetSysUptime 0 v; IPFixHeader.SetSourceID 0 v;
   IPFixHeader.SetTimestamp 0 v; IPFixHeader.SetFlowSeq 0 v].

(** ** Packets that differ in one field *)

(** The packet after an assignment to one of its header fields. *)
Definition with_header (i : IPFix.t) (up ts fs dom src : Z) : IPFix.t :=
  {| IPFix.Ver := IPFix.Ver i; IPFix.Length := IPFix.Length i;
     IPFix.SysUpTime := up; IPFix.Timestamp := ts; IPFix.FlowSeq := fs;
     IPFix.DomainID := dom; IPFix.SourceID := src;
     IPFix.Sets := IPFix.Sets i |}.

Definition with_Timestamp (i : IPFix.t) (ts : Z) : IPFix.t :=
  with_header i (IPFix.SysUpTime i) ts (IPFix.FlowSeq i) (IPFix.DomainID i)
              (IPFix.SourceID i).

Definition with_FlowSeq (i : IPFix.t) (fs : Z) : IPFix.t :=
  with_header i (IPFix.SysUpTime i) (IPFix.Timestamp i) fs (IPFix.DomainID i)
              (IPFix.SourceID i).

Definition with_SysUpTime (i : IPFix.t) (up : Z) : IPFix.t :=
  with_header i up (IPFix.Timestamp i) (IPFix.FlowSeq i) (IPFix.DomainID i)
              (IPFix.SourceID i).

Definition with_SourceID (i : IPFix.t) (src : Z) : IPFix.t :=
  with_header i (IPFix.SysUpTime i) (IPFix.Timestamp i) (IPFix.FlowSeq i)
              (IPFix.DomainID i) src.

(** The packet with other values in its stored length fields: [l] in the
    packet, [f s] in every set [s]. *)
Definition with_lengths (i : IPFix.t) (l : Z) (f : IPFixSet.t -> Z)
  : IPFix.t :=
  {| IPFix.Ver := IPFix.Ver i; IPFix.Length := l;
     IPFix.SysUpTime := IPFix.SysUpTime i; IPFix.Timestamp := IPFix.Timestamp i;
     IPFix.FlowSeq := IPFix.FlowSeq i; IPFix.DomainID := IPFix.DomainID i;
     IPFix.SourceID := IPFix.SourceID i;
     IPFix.Sets := map (fun s => IPFixSet.set_Length s (f s)) (IPFix.Sets i) |}.

(** The bytes after the header area in the region that [SerializeTo]
    leaves: what the loop over the sets makes of the reserved bytes. *)
Definition body_bytes (i : IPFix.t) (data : list byte) : list byte :=
  skipn (Z.to_nat (header_end i))
        (vals (place_sets (header_end i) (map finalize (IPFix.Sets i))
                          (fresh data))).

(** The number of enterprise-specific fields of a list. *)
Definition enterprise_count (fs : list IPFixField.t) : Z :=
  total (fun f => if IPFixField.IsEnterprise f then 1 else 0) fs.

(** A version-10 packet of one template set. *)
Definition packet_v10_template : IPFix.t :=
  IPFix.mk 10 0 0 1000 1 100 0 [set_template].

(** A packet of a version that is neither 9 nor 10. *)
Definition packet_v5 : IPFix.t :=
  IPFix.mk 5 0 0 1000 1 100 0 [set_small].

(** * JSON-RPC transport (package [jsonrpc]) *)

(** [*fastjson.RawMessage]: raw JSON bytes behind a pointer, nil when
    absent. *)
Definition RawMessage : Type := option (list byte).

Module Request.

Record t : Type := mk {
  Version : string;
  Method : string;
  Params : RawMessage;
  ID : RawMessage
}.

End Request.

(** What the file takes from outside: the [*Error] values of the package,
    which another file of the package builds, the error values and the
    JSON codec of [fastjson], the response writer of [net/http] and the
    rune decoder of [unicode/utf8].  A decoder returns its error or the value it has
    decoded into the pointer; a nil pointer is [None]. *)
Class World : Type := {
  Error : Type;
  ErrInvalidRequest : Error;
  ErrParse : Error;
  ErrInternal : Error;
  GoError : Type;
  Writer : Type;
  Unmarshal_Request : list byte -> GoError + option Request.t;
  Unmarshal_Requests : list byte -> GoError + list (option Request.t);
  Decode_Request : list byte -> GoError + option Request.t;
  Decode_Requests : list byte -> GoError + list (option Request.t);
  DecodeRune : list byte -> Z;
  Header_Set : string -> string -> Writer -> Writer
}.

Module jsonrpc.

Definition batchRequestKey : Z := 91.
Definition contentTypeKey : string := "Content-Type".
Definition contentTypeValue : string := "application/json".

(** A call returns or panics, with the value given to [panic] or with a
    run-time error. *)
Inductive run (A : Type) : Type :=
| Returns (a : A)
| Panics (v : string)
| RuntimePanic.
Arguments Panics {A} v.
Arguments RuntimePanic {A}.

(** What [ParseRequest] observes of a [*http.Request]: the value of its
    Content-Type header, its [ContentLength], what reading its body to
    the end gives, and whether closing the body fails. *)
Record HTTPRequest : Type := mkHTTPRequest {
  ContentType : string;
  ContentLength : Z;
  Body : option (list byte);
  CloseFails : bool
}.

(** The three results of the parsers: requests, batch flag, error. *)
Definition parsed {W : World} : Type :=
  (list (option Request.t) * bool * option Error)%type.

(** The part the two parsers share in shape: one request, or a batch
    when the first character is an opening bracket. *)
Definition ParseRequestBytes {W : World} (req : list byte) : parsed :=
  match req with
  | [] => ([], false, Some ErrInvalidRequest)
  | f :: _ =>
      let rs : list (option Request.t) := [] in
      if negb (Z_of_byte f =? 91) then
        match Unmarshal_Request req with
        | inl _ => ([], false, Some ErrParse)
        | inr singleReq => (rs ++ [singleReq], false, None)
        end
      else
        match Unmarshal_Requests req with
        | inl _ => ([], false, Some ErrParse)
        | inr rs => (rs, true, None)
        end
  end.

(** [buf.ReadRune] on a buffer that is not empty: a byte below 0x80 is
    the rune, otherwise the rune decoder of the library decides. *)
Definition ReadRune {W : World} (c : byte) (buf : list byte) : Z :=
  if Z_of_byte c <? 128 then Z_of_byte c else DecodeRune buf.

(** [ParseRequest].  The content type is checked first; the buffer is
    then made with capacity [r.ContentLength], which is a run-time error
    when that is negative; then the body is read.  [rerr] is a local
    variable and the results are not named: the deferred function, which
    runs once the results of a [return] are set, assigns to [rerr] only.
    [ReadRune] and [UnreadRune] do not fail on a buffer that is not
    empty. *)
Definition ParseRequest {W : World} (r : HTTPRequest) : run parsed :=
  let rerr : option Error := None in
  if negb (prefix contentTypeValue (ContentType r)) then
    Returns ([], false, Some ErrInvalidRequest)
  else if ContentLength r <? 0 then RuntimePanic
  else
    match Body r with
    | None => Returns ([], false, Some ErrInvalidRequest)
    | Some buf =>
        let results : parsed :=
          match buf with
          | [] => ([], false, Some ErrInvalidRequest)
          | c :: _ =>
              let f := ReadRune c buf in
              let rs : list (option Request.t) := [] in
              if negb (f =? batchRequestKey) then
                match Decode_Request buf with
                | inl _ => ([], false, Some ErrParse)
                | inr req => (rs ++ [req], false, None)
                end
              else
                match Decode_Requests buf with
                | inl _ => ([], false, Some ErrParse)
                | inr rs => (rs, true, rerr)
                end
          end in
        let rerr := if CloseFails r then Some ErrInternal else rerr in
        Returns results
    end.

(** [GetResponseBytes], over the marshaller: of a slice, or of one
    element. *)
Definition GetResponseBytes {Response Bytes : Type}
  (Marshal_all : list Response -> Bytes) (Marshal_one : Response -> Bytes)
  (resp : list Response) (batch : bool) : run Bytes :=
  if batch || (1 <? len resp) then Returns (Marshal_all resp)
  else
    match resp with
    | [r] => Returns (Marshal_one r)
    | _ => Panics " JSON-RPC There is no valid response  "
    end.

(** [SendResponse], over the encoder, which writes to [w] and returns
    its error. *)
Definition SendResponse {W : World} {Response : Type}
  (Encode_all : list Response -> Writer -> Writer * option GoError)
  (Encode_one : Response -> Writer -> Writer * option GoError)
  (w : Writer) (resp : list Response) (batch : bool)
  : Writer * option GoError :=
  let w := Header_Set contentTypeKey contentTypeValue w in
  if batch || (1 <? len resp) then Encode_all resp w
  else
    match resp with
    | [r] => Encode_one r w
    | _ => (w, None)
    end.

End jsonrpc.

(** A world for examples: an input that starts with a brace decodes to
    one request, an input that starts with a bracket to a batch of one. *)
Definition toy_request : Request.t :=
  Request.mk "2.0" "ping" None None.

Definition toy_http_request : jsonrpc.HTTPRequest :=
  jsonrpc.mkHTTPRequest "application/json; charset=utf-8" 2
                        (Some [x7b; x7d]) true.

Definition toy_http_chunked : jsonrpc.HTTPRequest :=
  jsonrpc.mkHTTPRequest "application/json" (-1) (Some [x7b; x7d]) false.

Definition toy_world : World :=
  {| Error := string;
     ErrInvalidRequest := "Invalid Request"%string;
     ErrParse := "Parse error"%string;
     ErrInternal := "Internal error"%string;
     GoError := unit;
     Writer := list (string * string);
     Unmarshal_Request := fun bs =>
       match bs with x7b :: _ => inr (Some toy_request) | _ => inl tt end;
     Unmarshal_Requests := fun bs =>
       match bs with x5b :: _ => inr [Some toy_request] | _ => inl tt end;
     Decode_Request := fun bs =>
       match bs with x7b :: _ => inr (Some toy_request) | _ => inl tt end;
     Decode_Requests := fun bs =>
       match bs with x5b :: _ => inr [Some toy_request] | _ => inl tt end;
     DecodeRune := fun _ => 65533;
     Header_Set := fun k v w => (k, v) :: w |}.

(** * Properties *)

Unset Implicit Arguments.

(** ** The region *)

Lemma len_nonneg {A : Type} (l : list A) : 0 <= len l.
Proof. unfold len. lia. Qed.

Lemma len_app {A : Type} (l1 l2 : list A) : len (l1 ++ l2) = len l1 + len l2.
Proof. unfold len. rewrite length_app. lia. Qed.

Lemma poke_nil_r (bs : list byte) : poke bs [] = [].
Proof. destruct bs; reflexivity. Qed.

Lemma poke_length (bs : list byte) : forall d, length (poke bs d) = length d.
Proof.
  induction bs as [|b bs IH]; intros [|c d]; simpl; auto.
Qed.

Lemma store_at_0 (bs : list byte) (d : mem) : store_at 0 bs d = poke bs d.
Proof. reflexivity. Qed.

Lemma store_at_S (p : nat) (bs : list byte) (c : cell) (d : mem) :
  store_at (S p) bs (c :: d) = c :: store_at p bs d.
Proof. reflexivity. Qed.

Lemma store_at_length (p : nat) (bs : list byte) (d : mem) :
  length (store_at p bs d) = length d.
Proof.
  unfold store_at.
  rewrite length_app, poke_length, <- length_app, firstn_skipn.
  reflexivity.
Qed.

Lemma store_at_len (p : nat) (bs : list byte) (d : mem) :
  len (store_at p bs d) = len d.
Proof. unfold len. now rewrite store_at_length. Qed.

Lemma store_at_nil (p : nat) (d : mem) : store_at p [] d = d.
Proof. unfold store_at. simpl. apply firstn_skipn. Qed.

Lemma poke_app (xs ys : list byte) :
  forall d, (length xs <= length d)%nat ->
            poke (xs ++ ys) d = store_at (length xs) ys (poke xs d).
Proof.
  induction xs as [|x xs IH]; intros d Hd.
  - reflexivity.
  - destruct d as [|c d]; simpl in Hd; [lia|].
    simpl. rewrite store_at_S. f_equal. apply IH. lia.
Qed.

Lemma store_at_app (p : nat) (xs ys : list byte) :
  forall d, (p + length xs <= length d)%nat ->
            store_at p (xs ++ ys) d
            = store_at (p + length xs) ys (store_at p xs d).
Proof.
  induction p as [|p IH]; intros d Hd.
  - rewrite !store_at_0. now apply poke_app.
  - destruct d as [|c d]; simpl in Hd; [lia|].
    simpl Nat.add. rewrite !store_at_S. f_equal. apply IH. lia.
Qed.

Lemma stores_poke (bs : list byte) :
  forall d, (length bs <= length d)%nat ->
            stores (poke bs d) = stores d + len bs.
Proof.
  unfold len.
  induction bs as [|b bs IH]; intros d Hd.
  - simpl. lia.
  - destruct d as [|c d]; simpl in Hd; [lia|].
    cbn [poke stores hit hits length]. rewrite IH by lia. lia.
Qed.

Lemma stores_store_at (p : nat) (bs : list byte) :
  forall d, (p + length bs <= length d)%nat ->
            stores (store_at p bs d) = stores d + len bs.
Proof.
  induction p as [|p IH]; intros d Hd.
  - rewrite store_at_0. now apply stores_poke.
  - destruct d as [|c d]; simpl in Hd; [lia|].
    rewrite store_at_S. simpl stores. rewrite IH by lia. lia.
Qed.

Lemma vals_poke (bs : list byte) :
  forall d, (length bs <= length d)%nat ->
            vals (poke bs d) = bs ++ skipn (length bs) (vals d).
Proof.
  induction bs as [|b bs IH]; intros d Hd.
  - reflexivity.
  - destruct d as [|c d]; simpl in Hd; [lia|].
    simpl. f_equal. apply IH. lia.
Qed.

Lemma vals_store_at (p : nat) (bs : list byte) :
  forall d, (p + length bs <= length d)%nat ->
            vals (store_at p bs d)
            = firstn p (vals d) ++ bs ++ skipn (p + length bs) (vals d).
Proof.
  induction p as [|p IH]; intros d Hd.
  - rewrite store_at_0. now apply vals_poke.
  - destruct d as [|c d]; simpl in Hd; [lia|].
    rewrite store_at_S. simpl. f_equal. apply IH. lia.
Qed.

Lemma firstn_store_at (p : nat) (bs : list byte) :
  forall q d, (q <= p)%nat -> firstn q (store_at p bs d) = firstn q d.
Proof.
  induction p as [|p IH]; intros q d Hq.
  - replace q with 0%nat by lia. reflexivity.
  - destruct d as [|c d].
    + unfold store_at. rewrite firstn_nil, skipn_nil, poke_nil_r. reflexivity.
    + rewrite store_at_S. destruct q as [|q]; [reflexivity|].
      simpl. f_equal. apply IH. lia.
Qed.

Lemma vals_fresh (bs : list byte) : vals (fresh bs) = bs.
Proof.
  unfold vals, fresh. rewrite map_map. simpl. apply map_id.
Qed.

Lemma stores_fresh (bs : list byte) : stores (fresh bs) = 0.
Proof. induction bs as [|b bs IH]; simpl; lia. Qed.

Lemma len_fresh (bs : list byte) : len (fresh bs) = len bs.
Proof. unfold len, fresh. now rewrite length_map. Qed.

Lemma len_vals (d : mem) : len (vals d) = len d.
Proof. unfold len, vals. now rewrite length_map. Qed.

(** ** The write monad *)

Lemma writes_ret (b : Z) : writes (ret tt) b [].
Proof. intros d _ _. unfold ret. now rewrite store_at_nil. Qed.

Lemma writes_bind (m1 m2 : M unit) (b : Z) (xs ys : list byte) :
  writes m1 b xs -> writes m2 (b + len xs) ys ->
  writes (m1 ;; m2) b (xs ++ ys).
Proof.
  intros H1 H2 d Hb Hd. rewrite len_app in Hd.
  pose proof (len_nonneg xs). pose proof (len_nonneg ys).
  unfold bind. rewrite H1 by lia.
  rewrite H2 by (rewrite ?store_at_len; lia).
  rewrite store_at_app by (unfold len in *; lia).
  do 3 f_equal. unfold len. lia.
Qed.

Lemma writes_bind_nil (m1 m2 : M unit) (b : Z) (xs : list byte) :
  writes m1 b xs -> writes m2 (b + len xs) [] -> writes (m1 ;; m2) b xs.
Proof.
  intros H1 H2. rewrite <- (app_nil_r xs). now apply writes_bind.
Qed.

Lemma writes_put (b lo hi : Z) (bs : list byte) :
  hi - lo = len bs -> writes (put b lo hi bs) (b + lo) bs.
Proof.
  intros Hw d Hb Hd. unfold put.
  replace (0 <=? b + lo) with true by (symmetry; apply Z.leb_le; lia).
  replace (b + hi <=? len d) with true by (symmetry; apply Z.leb_le; lia).
  reflexivity.
Qed.

Lemma writes_put0 (b hi : Z) (bs : list byte) :
  hi = len bs -> writes (put b 0 hi bs) b bs.
Proof.
  intros Hw. rewrite <- (Z.add_0_r b) at 2. apply writes_put. lia.
Qed.

Lemma writes_reslice (m : slice -> M unit) (b k : Z) (bs : list byte) :
  0 <= k -> writes (m (b + k)) (b + k) bs ->
  writes (b' <- reslice b k ;; m b') (b + k) bs.
Proof.
  intros Hk H d Hb Hd. pose proof (len_nonneg bs).
  unfold bind, reslice.
  replace (0 <=? k) with true by (symmetry; apply Z.leb_le; lia).
  replace (b + k <=? len d) with true by (symmetry; apply Z.leb_le; lia).
  simpl. now apply H.
Qed.

Lemma writes_copy (b : slice) (src : list byte) : writes (copy b src) b src.
Proof. intros d _ _. reflexivity. Qed.

Lemma writes_at (m : M unit) (b b' : Z) (bs : list byte) :
  b = b' -> writes m b bs -> writes m b' bs.
Proof. now intros ->. Qed.

(** ** Fields *)

Lemma land_0x8000 (x : Z) :
  Z.land x 0x8000 = if Z.testbit x 15 then 0x8000 else 0.
Proof.
  apply Z.bits_inj'. intros n Hn.
  rewrite Z.land_spec.
  assert (Hp : Z.testbit 0x8000 n = (15 =? n)).
  { change 0x8000 with (2 ^ 15). apply Z.pow2_bits_eqb. lia. }
  rewrite Hp.
  destruct (Z.eqb_spec 15 n) as [<-|Hne].
  - rewrite andb_true_r.
    destruct (Z.testbit x 15); [now rewrite Hp|now rewrite Z.bits_0].
  - rewrite andb_false_r.
    destruct (Z.testbit x 15); [now rewrite Hp|now rewrite Z.bits_0].
Qed.

Lemma IsEnterprise_testbit (f : IPFixField.t) :
  IPFixField.IsEnterprise f = Z.testbit (IPFixField.Type_ f) 15.
Proof.
  unfold IPFixField.IsEnterprise. rewrite land_0x8000.
  now destruct (Z.testbit (IPFixField.Type_ f) 15).
Qed.

Lemma Field_Len_wire (f : IPFixField.t) :
  IPFixField.Len f = len (IPFixField.wire f).
Proof.
  unfold IPFixField.Len, IPFixField.wire.
  rewrite IsEnterprise_testbit.
  now destruct (Z.testbit (IPFixField.Type_ f) 15).
Qed.

Lemma Field_Len_pos (f : IPFixField.t) : 0 <= IPFixField.Len f.
Proof. rewrite Field_Len_wire. apply len_nonneg. Qed.

Lemma Field_encode_writes (f : IPFixField.t) (b : slice) :
  writes (IPFixField.encode f b) b (IPFixField.wire f).
Proof.
  unfold IPFixField.encode, IPFixField.wire, PutUint16, PutUint32.
  rewrite IsEnterprise_testbit.
  apply writes_bind; [now apply writes_put0|].
  apply writes_bind; [now apply (writes_put b 2 4)|].
  apply writes_bind_nil; [|apply writes_ret].
  destruct (Z.testbit (IPFixField.Type_ f) 15).
  - apply writes_at with (b := b + 4); [unfold len; simpl; lia|].
    now apply writes_put.
  - apply writes_ret.
Qed.

(** ** Sums *)

Lemma fold_left_total {A : Type} (f : A -> Z) (l : list A) :
  forall n, fold_left (fun n a => n + f a) l n = n + total f l.
Proof.
  induction l as [|a l IH]; intros n; simpl.
  - lia.
  - rewrite IH. lia.
Qed.

Lemma total_app {A : Type} (f : A -> Z) (l1 l2 : list A) :
  total f (l1 ++ l2) = total f l1 + total f l2.
Proof. induction l1 as [|a l1 IH]; simpl; lia. Qed.

Lemma total_nonneg {A : Type} (f : A -> Z) (l : list A) :
  (forall a, 0 <= f a) -> 0 <= total f l.
Proof.
  intros Hf. induction l as [|a l IH]; simpl; [lia|].
  specialize (Hf a). lia.
Qed.

Lemma total_ext {A : Type} (f g : A -> Z) (l : list A) :
  (forall a, f a = g a) -> total f l = total g l.
Proof. intros H. induction l as [|a l IH]; simpl; [|rewrite H, IH]; auto. Qed.

Lemma total_map {A B : Type} (f : B -> Z) (g : A -> B) (l : list A) :
  total f (map g l) = total (fun a => f (g a)) l.
Proof. induction l as [|a l IH]; simpl; [|rewrite IH]; auto. Qed.

Lemma len_concat_map {A : Type} (w : A -> list byte) (l : list A) :
  len (concat (map w l)) = total (fun a => len (w a)) l.
Proof.
  induction l as [|a l IH]; simpl; [reflexivity|].
  now rewrite len_app, IH.
Qed.

(** ** Templates, records and entries *)

Lemma Template_Len_total (t0 : IPFixTemplate.t) :
  IPFixTemplate.Len t0 = 4 + total IPFixField.Len (IPFixTemplate.Fields t0).
Proof. unfold IPFixTemplate.Len. apply fold_left_total. Qed.

Lemma Template_Len_wire (t0 : IPFixTemplate.t) :
  IPFixTemplate.Len t0 = len (IPFixTemplate.wire t0).
Proof.
  rewrite Template_Len_total. unfold IPFixTemplate.wire.
  rewrite !len_app, len_concat_map.
  rewrite (total_ext _ _ _ Field_Len_wire).
  change (len (be16 (IPFixTemplate.ID t0))) with 2.
  change (len (be16 (IPFixTemplate.FieldCount t0))) with 2. lia.
Qed.

Lemma encode_fields_writes (fs : list IPFixField.t) (b : slice) :
  forall offset, 0 <= offset ->
    writes (IPFixTemplate.encode_fields fs b offset) (b + offset)
           (concat (map IPFixField.wire fs)).
Proof.
  induction fs as [|f fs IH]; intros offset Ho;
    cbn [IPFixTemplate.encode_fields map concat].
  - apply writes_ret.
  - apply (writes_reslice
             (fun b' => IPFixField.encode f b' ;;
                        IPFixTemplate.encode_fields fs b
                          (offset + IPFixField.Len f))); [assumption|].
    cbv beta. apply writes_bind; [apply Field_encode_writes|].
    pose proof (Field_Len_pos f).
    apply writes_at with (b := b + (offset + IPFixField.Len f)).
    + rewrite Field_Len_wire. lia.
    + apply IH. lia.
Qed.

Lemma Template_encode_writes (t0 : IPFixTemplate.t) (b : slice) :
  writes (IPFixTemplate.encode t0 b) b (IPFixTemplate.wire t0).
Proof.
  unfold IPFixTemplate.encode, IPFixTemplate.wire, PutUint16.
  apply writes_bind; [now apply writes_put0|].
  apply writes_bind; [now apply (writes_put b 2 4)|].
  apply writes_at with (b := b + 4); [unfold len; simpl; lia|].
  now apply encode_fields_writes.
Qed.

Lemma Record_encode_writes (r : IPFixRecord.t) (b : slice) :
  writes (IPFixRecord.encode r b) b (IPFixRecord.wire r).
Proof.
  unfold IPFixRecord.encode, IPFixRecord.wire.
  apply writes_bind_nil; [apply writes_copy|apply writes_ret].
Qed.

Lemma Entry_Len_wire (e : SetEntry) : Entry.Len e = len (Entry.wire e).
Proof.
  destruct e as [t0|r]; simpl.
  - apply Template_Len_wire.
  - reflexivity.
Qed.

Lemma Entry_Len_pos (e : SetEntry) : 0 <= Entry.Len e.
Proof. rewrite Entry_Len_wire. apply len_nonneg. Qed.

Lemma Entry_encode_writes (e : SetEntry) (b : slice) :
  writes (Entry.encode e b) b (Entry.wire e).
Proof.
  destruct e as [t0|r]; simpl.
  - apply Template_encode_writes.
  - apply Record_encode_writes.
Qed.

(** ** Sets *)

(** The byte length of a set: what [IPFixSet.Len] returns. *)
Lemma Set_Len_total (s : IPFixSet.t) :
  fst (IPFixSet.Len s) = 4 + total Entry.Len (IPFixSet.SetEntries s).
Proof. unfold IPFixSet.Len. cbn [fst]. apply fold_left_total. Qed.

Lemma Set_Len_wire (s : IPFixSet.t) :
  fst (IPFixSet.Len s) = len (IPFixSet.wire s).
Proof.
  rewrite Set_Len_total. unfold IPFixSet.wire.
  rewrite !len_app, len_concat_map.
  rewrite (total_ext _ _ _ Entry_Len_wire).
  change (len (be16 (IPFixSet.ID s))) with 2.
  change (len (be16 (IPFixSet.Length s))) with 2. lia.
Qed.

Lemma Set_Len_ge4 (s : IPFixSet.t) : 4 <= fst (IPFixSet.Len s).
Proof.
  rewrite Set_Len_total.
  pose proof (total_nonneg Entry.Len (IPFixSet.SetEntries s) Entry_Len_pos).
  lia.
Qed.

Lemma Set_Len_stored (s : IPFixSet.t) :
  IPFixSet.Length (snd (IPFixSet.Len s)) = uint16 (fst (IPFixSet.Len s)).
Proof. reflexivity. Qed.

Lemma Set_Len_again (s : IPFixSet.t) :
  IPFixSet.Len (snd (IPFixSet.Len s)) = IPFixSet.Len s.
Proof. reflexivity. Qed.

Lemma IsDataSet_spec (s : IPFixSet.t) :
  IPFixSet.IsDataSet s = true <-> 255 < IPFixSet.ID s.
Proof. unfold IPFixSet.IsDataSet. apply Z.ltb_lt. Qed.

Lemma encode_entries_writes (es : list SetEntry) (b : slice) :
  forall offset, 0 <= offset ->
    writes (IPFixSet.encode_entries es b offset) (b + offset)
           (concat (map Entry.wire es)).
Proof.
  induction es as [|e es IH]; intros offset Ho;
    cbn [IPFixSet.encode_entries map concat].
  - apply writes_ret.
  - apply (writes_reslice
             (fun b' => Entry.encode e b' ;;
                        IPFixSet.encode_entries es b
                          (offset + Entry.Len e))); [assumption|].
    cbv beta. apply writes_bind; [apply Entry_encode_writes|].
    pose proof (Entry_Len_pos e).
    apply writes_at with (b := b + (offset + Entry.Len e)).
    + rewrite Entry_Len_wire. lia.
    + apply IH. lia.
Qed.

Lemma Set_encode_writes (s : IPFixSet.t) (b : slice) :
  writes (IPFixSet.encode s b) b (IPFixSet.wire s).
Proof.
  unfold IPFixSet.encode, IPFixSet.wire, PutUint16.
  apply writes_bind; [now apply writes_put0|].
  apply writes_bind; [now apply (writes_put b 2 4)|].
  apply writes_at with (b := b + 4); [unfold len; simpl; lia|].
  now apply encode_entries_writes.
Qed.

(** ** The packet *)

Lemma bind_assoc {A B C : Type} (m : M A) (f : A -> M B) (g : B -> M C)
  (d : mem) :
  bind (bind m f) g d = bind m (fun x => bind (f x) g) d.
Proof. unfold bind. destruct (m d) as [[a d']| |]; reflexivity. Qed.

Lemma bind_ret {A B : Type} (a : A) (k : A -> M B) (d : mem) :
  bind (ret a) k d = k a d.
Proof. reflexivity. Qed.

Lemma bind_put {A : Type} (b lo hi : Z) (bs : list byte) (k : unit -> M A)
  (d : mem) :
  0 <= b + lo -> b + hi <= len d ->
  bind (put b lo hi bs) k d = k tt (store_at (Z.to_nat (b + lo)) bs d).
Proof.
  intros H1 H2. unfold bind, put.
  replace (0 <=? b + lo) with true by (symmetry; apply Z.leb_le; lia).
  replace (b + hi <=? len d) with true by (symmetry; apply Z.leb_le; lia).
  reflexivity.
Qed.

Lemma bind_writes {A : Type} (m : M unit) (k : unit -> M A) (b : Z)
  (xs : list byte) (d : mem) :
  writes m b xs -> 0 <= b -> b + len xs <= len d ->
  bind m k d = k tt (store_at (Z.to_nat b) xs d).
Proof. intros H Hb Hd. unfold bind. now rewrite H. Qed.

Lemma Len_sets_spec (ss : list IPFixSet.t) :
  forall n, IPFix.Len_sets n ss = (n + total set_len ss, map finalize ss).
Proof.
  induction ss as [|s ss IH]; intros n;
    cbn [IPFix.Len_sets total map fold_right].
  - f_equal. lia.
  - destruct (IPFixSet.Len s) as [k s'] eqn:E.
    rewrite IH. unfold set_len, finalize. rewrite E. cbn [fst snd].
    f_equal. unfold total. lia.
Qed.

Lemma IPFix_Len_fst (i : IPFix.t) :
  fst (IPFix.Len i) = header_end i + total set_len (IPFix.Sets i).
Proof.
  unfold IPFix.Len, header_end. rewrite Len_sets_spec. reflexivity.
Qed.

Lemma IPFix_Len_snd (i : IPFix.t) :
  snd (IPFix.Len i) =
  {| IPFix.Ver := IPFix.Ver i; IPFix.Length := uint16 (fst (IPFix.Len i));
     IPFix.SysUpTime := IPFix.SysUpTime i; IPFix.Timestamp := IPFix.Timestamp i;
     IPFix.FlowSeq := IPFix.FlowSeq i; IPFix.DomainID := IPFix.DomainID i;
     IPFix.SourceID := IPFix.SourceID i;
     IPFix.Sets := map finalize (IPFix.Sets i) |}.
Proof.
  unfold IPFix.Len. rewrite Len_sets_spec. reflexivity.
Qed.

Lemma set_len_ge4 (s : IPFixSet.t) : 4 <= set_len s.
Proof. apply Set_Len_ge4. Qed.

Lemma set_len_finalize (s : IPFixSet.t) : set_len (finalize s) = set_len s.
Proof. reflexivity. Qed.

Lemma finalize_finalize (s : IPFixSet.t) : finalize (finalize s) = finalize s.
Proof. reflexivity. Qed.

Lemma total_set_len_nonneg (ss : list IPFixSet.t) : 0 <= total set_len ss.
Proof.
  apply total_nonneg. intros s. pose proof (set_len_ge4 s). lia.
Qed.

Lemma header_len (i : IPFix.t) : len (header i) <= header_end i.
Proof.
  unfold header, header_end, IpfixHeaderLenVer9, IpfixHeaderLenVer10.
  destruct (Z.eqb_spec (IPFix.Ver i) 10) as [E|E].
  - rewrite E. simpl. unfold len. simpl. lia.
  - destruct (IPFix.Ver i =? 9); unfold len; simpl; lia.
Qed.

Ltac run_puts :=
  repeat first
    [ rewrite bind_assoc
    | rewrite bind_ret
    | rewrite bind_put by (rewrite ?store_at_len; lia) ].

Ltac join_stores :=
  repeat (rewrite store_at_app
            by (rewrite ?store_at_length; simpl length; lia)).

(** The header part of [SerializeTo]: one store of [header i] at offset 0,
    after which the loop over the sets starts at [header_end i]. *)
Lemma fill_header (i : IPFix.t) (d : mem) :
  header_end i <= len d ->
  IPFix.fill i 0 d
  = IPFix.encode_sets (IPFix.Sets i) 0 (header_end i)
                      (store_at 0 (header i) d).
Proof.
  unfold header_end, header, IPFix.fill, PutUint16, PutUint32,
    IpfixHeaderLenVer9, IpfixHeaderLenVer10.
  intros Hd.
  assert (Hn : (16 <= length d)%nat).
  { unfold len in Hd. destruct (IPFix.Ver i =? 9); lia. }
  destruct (Z.eqb_spec (IPFix.Ver i) 10) as [E10|E10].
  - replace (IPFix.Ver i =? 9) with false in *
      by (symmetry; apply Z.eqb_neq; lia).
    run_puts. unfold header10. join_stores. reflexivity.
  - destruct (Z.eqb_spec (IPFix.Ver i) 9) as [E9|E9].
    + assert (Hn' : (20 <= length d)%nat) by (unfold len in Hd; lia).
      cbv zeta. rewrite fold_left_total, Z.add_0_l. fold (entry_count i).
      run_puts. unfold header9. join_stores. reflexivity.
    + run_puts. reflexivity.
Qed.

Lemma place_sets_length (ss : list IPFixSet.t) :
  forall offset d, length (place_sets offset ss d) = length d.
Proof.
  induction ss as [|s ss IH]; intros offset d; simpl.
  - reflexivity.
  - now rewrite IH, store_at_length.
Qed.

Lemma finalize_short_stored (s : IPFixSet.t) : short_stored (finalize s).
Proof.
  unfold short_stored. rewrite <- Set_Len_wire.
  change (fst (IPFixSet.Len (finalize s))) with (set_len s).
  change (IPFixSet.Length (finalize s)) with (uint16 (set_len s)).
  pose proof (set_len_ge4 s). unfold uint16.
  pose proof (Z.mod_pos_bound (set_len s) 65536 ltac:(lia)).
  pose proof (Z.mod_le (set_len s) 65536 ltac:(lia) ltac:(lia)). lia.
Qed.

Lemma wire_len_finalize (s : IPFixSet.t) :
  len (IPFixSet.wire (finalize s)) = set_len s.
Proof. rewrite <- Set_Len_wire. reflexivity. Qed.

(** The loop over the sets never leaves the region: each set is stored
    whole at its cursor. *)
Lemma encode_sets_place (ss : list IPFixSet.t) :
  forall offset d,
    0 <= offset ->
    offset + total (fun s => len (IPFixSet.wire s)) ss <= len d ->
    Forall short_stored ss ->
    IPFix.encode_sets ss 0 offset d = Ok (tt, place_sets offset ss d).
Proof.
  induction ss as [|s ss IH]; intros offset d Ho Hd Hs;
    cbn [IPFix.encode_sets place_sets].
  - reflexivity.
  - inversion Hs as [|s0 ss0 [Hs1 Hs2] Hss]; subst.
    cbn [total fold_right] in Hd.
    fold (total (fun s => len (IPFixSet.wire s)) ss) in Hd.
    assert (Ht : 0 <= total (fun s => len (IPFixSet.wire s)) ss)
      by (apply total_nonneg; intros; apply len_nonneg).
    unfold bind at 1, reslice.
    replace (0 <=? offset) with true by (symmetry; apply Z.leb_le; lia).
    replace (0 + offset <=? len d) with true
      by (symmetry; apply Z.leb_le; lia).
    cbn [andb]. rewrite Z.add_0_l.
    rewrite (bind_writes _ _ offset (IPFixSet.wire s))
      by (apply Set_encode_writes || lia).
    apply IH; [lia| rewrite store_at_len; lia | assumption].
Qed.

Lemma place_sets_stores (ss : list IPFixSet.t) :
  forall offset d,
    0 <= offset ->
    offset + total (fun s => len (IPFixSet.wire s)) ss <= len d ->
    Forall short_stored ss ->
    stores (place_sets offset ss d)
    = stores d + total (fun s => len (IPFixSet.wire s)) ss.
Proof.
  induction ss as [|s ss IH]; intros offset d Ho Hd Hs; cbn [place_sets].
  - simpl. lia.
  - inversion Hs as [|s0 ss0 [Hs1 Hs2] Hss]; subst.
    cbn [total fold_right] in *.
    fold (total (fun s => len (IPFixSet.wire s)) ss) in *.
    assert (Ht : 0 <= total (fun s => len (IPFixSet.wire s)) ss)
      by (apply total_nonneg; intros; apply len_nonneg).
    rewrite IH; [| lia | rewrite store_at_len; lia | assumption].
    rewrite stores_store_at by (unfold len in *; lia). lia.
Qed.

Lemma place_sets_firstn (ss : list IPFixSet.t) :
  forall offset d q,
    (q <= Z.to_nat offset)%nat ->
    Forall short_stored ss ->
    firstn q (place_sets offset ss d) = firstn q d.
Proof.
  induction ss as [|s ss IH]; intros offset d q Hq Hs; cbn [place_sets].
  - reflexivity.
  - inversion Hs as [|s0 ss0 [Hs1 Hs2] Hss]; subst.
    rewrite IH by (assumption || lia).
    now apply firstn_store_at.
Qed.

(** When every stored length is the byte length, the sets are contiguous:
    the loop amounts to one store of their concatenation. *)
Lemma place_sets_contiguous (ss : list IPFixSet.t) :
  forall offset d,
    0 <= offset ->
    offset + total (fun s => len (IPFixSet.wire s)) ss <= len d ->
    Forall (fun s => IPFixSet.Length s = len (IPFixSet.wire s)) ss ->
    place_sets offset ss d
    = store_at (Z.to_nat offset) (concat (map IPFixSet.wire ss)) d.
Proof.
  induction ss as [|s ss IH]; intros offset d Ho Hd Hs;
    cbn [place_sets map concat].
  - now rewrite store_at_nil.
  - inversion Hs as [|s0 ss0 Hs1 Hss]; subst.
    cbn [total fold_right] in *.
    fold (total (fun s => len (IPFixSet.wire s)) ss) in *.
    assert (Ht : 0 <= total (fun s => len (IPFixSet.wire s)) ss)
      by (apply total_nonneg; intros; apply len_nonneg).
    pose proof (len_nonneg (IPFixSet.wire s)).
    rewrite IH; [| lia | rewrite store_at_len; lia | assumption].
    rewrite store_at_app by (unfold len in *; lia).
    f_equal. rewrite Hs1. unfold len. lia.
Qed.

(** ** SerializeTo *)

Lemma PrependBytes_len (b : SerializeBuffer.t) (num : Z) (data : list byte) :
  0 <= num -> SerializeBuffer.PrependBytes b num = inr data -> len data = num.
Proof.
  unfold SerializeBuffer.PrependBytes. intros Hn H.
  destruct (SerializeBuffer.refuse b num); [discriminate|].
  injection H as <-. unfold len. rewrite length_map, length_seq. lia.
Qed.

Lemma IPFix_Len_nonneg (i : IPFix.t) : header_end i <= fst (IPFix.Len i).
Proof.
  rewrite IPFix_Len_fst.
  pose proof (total_set_len_nonneg (IPFix.Sets i)). lia.
Qed.

Lemma header_end_pos (i : IPFix.t) : 16 <= header_end i.
Proof.
  unfold header_end, IpfixHeaderLenVer9, IpfixHeaderLenVer10.
  destruct (IPFix.Ver i =? 9); lia.
Qed.

Lemma total_wire_finalize (ss : list IPFixSet.t) :
  total (fun s => len (IPFixSet.wire s)) (map finalize ss) = total set_len ss.
Proof.
  rewrite total_map. apply total_ext. intros s. apply wire_len_finalize.
Qed.

Lemma Forall_finalize_short (ss : list IPFixSet.t) :
  Forall short_stored (map finalize ss).
Proof.
  apply Forall_forall. intros s Hs. apply in_map_iff in Hs.
  destruct Hs as [s0 [<- _]]. apply finalize_short_stored.
Qed.

(** [SerializeTo] never faults and never fails once the bytes are
    reserved: the region it leaves is the header stored at 0 and every set
    stored at its cursor. *)
Lemma SerializeTo_run (i : IPFix.t) (b : SerializeBuffer.t)
  (data : list byte) :
  SerializeBuffer.PrependBytes b (fst (IPFix.Len i)) = inr data ->
  IPFix.SerializeTo i b
  = (Ok (place_sets (header_end i) (map finalize (IPFix.Sets i))
                    (store_at 0 (header (snd (IPFix.Len i))) (fresh data))),
     snd (IPFix.Len i)).
Proof.
  intros Hb.
  pose proof (IPFix_Len_nonneg i) as Hn.
  pose proof (header_end_pos i) as Hh.
  assert (Hl : len data = fst (IPFix.Len i))
    by (apply PrependBytes_len with (b := b); [lia|assumption]).
  pose proof (IPFix_Len_fst i) as Hf.
  pose proof (IPFix_Len_snd i) as Hi.
  unfold IPFix.SerializeTo.
  destruct (IPFix.Len i) as [plen i'] eqn:E. cbn [fst snd] in *.
  rewrite Hb.
  assert (He : header_end i' = header_end i) by (subst i'; reflexivity).
  assert (Hs : IPFix.Sets i' = map finalize (IPFix.Sets i))
    by (subst i'; reflexivity).
  rewrite fill_header by (rewrite len_fresh, He; lia).
  rewrite encode_sets_place.
  - now rewrite He, Hs.
  - lia.
  - rewrite store_at_len, len_fresh, Hs, total_wire_finalize, He. lia.
  - rewrite Hs. apply Forall_finalize_short.
Qed.

Lemma header_len_v10 (i : IPFix.t) :
  IPFix.Ver i = 10 -> length (header i) = 16%nat /\ header i = header10 i.
Proof.
  intros E. unfold header. rewrite E. split; reflexivity.
Qed.

Lemma header_len_v9 (i : IPFix.t) :
  IPFix.Ver i = 9 -> length (header i) = 20%nat /\ header i = header9 i.
Proof.
  intros E. unfold header. rewrite E. split; reflexivity.
Qed.

(** The header sits in front of the region [SerializeTo] leaves, whatever
    the sets. *)
Lemma place_sets_header (i : IPFix.t) (ss : list IPFixSet.t) (d : mem) :
  header_end i <= len d ->
  Forall short_stored ss ->
  firstn (length (header i))
         (vals (place_sets (header_end i) ss (store_at 0 (header i) d)))
  = header i.
Proof.
  intros Hd Hs.
  pose proof (header_len i) as Hl. pose proof (header_end_pos i).
  unfold vals. rewrite firstn_map.
  rewrite place_sets_firstn by (assumption || (unfold len in *; lia)).
  rewrite <- firstn_map. fold (vals (store_at 0 (header i) d)).
  rewrite vals_store_at by (unfold len in *; simpl; lia).
  simpl firstn at 2. simpl app.
  rewrite firstn_app, firstn_all, Nat.sub_diag. simpl.
  now rewrite app_nil_r.
Qed.

(** ** Bytes and 16-bit values *)

Lemma Z_of_byte_of_Z (v : Z) : Z_of_byte (byte_of_Z v) = v mod 256.
Proof.
  unfold Z_of_byte, byte_of_Z.
  pose proof (Z.mod_pos_bound v 256 ltac:(lia)) as Hm.
  destruct (Byte.of_N (Z.to_N (v mod 256))) as [b|] eqn:E.
  - apply Byte.to_of_N in E. rewrite E. apply Z2N.id. lia.
  - apply Byte.of_N_None_iff in E. lia.
Qed.

Lemma Uint16_be16 (v : Z) : Uint16 (be16 v) = v mod 65536.
Proof.
  unfold Uint16, be16. rewrite !Z_of_byte_of_Z.
  change 256 with (2 ^ 8). change 65536 with (2 ^ 16).
  apply Z.bits_inj'. intros n Hn.
  rewrite Z.lor_spec, Z.shiftl_spec by lia.
  destruct (Z.ltb_spec n 8) as [H8|H8].
  - rewrite (Z.testbit_neg_r _ (n - 8)) by lia.
    rewrite !Z.mod_pow2_bits_low by lia. reflexivity.
  - rewrite (Z.mod_pow2_bits_high v 8 n) by lia. rewrite orb_false_r.
    destruct (Z.ltb_spec n 16) as [H16|H16].
    + rewrite !Z.mod_pow2_bits_low by lia.
      rewrite Z.shiftr_spec by lia. f_equal. lia.
    + rewrite !Z.mod_pow2_bits_high by lia. reflexivity.
Qed.

Lemma uint16_small (n : Z) : 0 <= n <= 65535 -> uint16 n = n.
Proof. intros H. unfold uint16. apply Z.mod_small. lia. Qed.

Lemma uint16_wraps (n : Z) : 65535 < n -> uint16 n <> n.
Proof.
  intros H. unfold uint16.
  pose proof (Z.mod_pos_bound n 65536 ltac:(lia)). lia.
Qed.

Lemma entry_count_Len (i : IPFix.t) :
  entry_count (snd (IPFix.Len i)) = entry_count i.
Proof.
  rewrite IPFix_Len_snd. unfold entry_count. cbn [IPFix.Sets].
  rewrite total_map. reflexivity.
Qed.

(** ** The contiguous case *)

Lemma once_poke_fresh (bs : list byte) :
  forall data, length bs = length data ->
               once (poke bs (fresh data)) /\ vals (poke bs (fresh data)) = bs.
Proof.
  unfold once.
  induction bs as [|x bs IH]; intros [|y data] Hl; simpl in Hl;
    try discriminate; simpl.
  - split; [constructor|reflexivity].
  - destruct (IH data ltac:(lia)) as [H1 H2]. split.
    + constructor; [reflexivity|assumption].
    + now f_equal.
Qed.

Lemma finalize_exact (ss : list IPFixSet.t) :
  Forall (fun s => set_len s <= 65535) ss ->
  Forall (fun s => IPFixSet.Length s = len (IPFixSet.wire s))
         (map finalize ss).
Proof.
  intros H. apply Forall_forall. intros s Hs. apply in_map_iff in Hs.
  destruct Hs as [s0 [<- Hin]]. rewrite wire_len_finalize.
  change (IPFixSet.Length (finalize s0)) with (uint16 (set_len s0)).
  apply uint16_small. rewrite Forall_forall in H.
  specialize (H s0 Hin). pose proof (set_len_ge4 s0). lia.
Qed.

(** When no set is longer than a 16-bit length can tell, the region that
    [SerializeTo] leaves is one store of the header and the sets, end to
    end, over the whole region. *)
Lemma SerializeTo_contiguous (i : IPFix.t) (b : SerializeBuffer.t)
  (data : list byte) :
  IPFix.Ver i = 9 \/ IPFix.Ver i = 10 ->
  SerializeBuffer.PrependBytes b (fst (IPFix.Len i)) = inr data ->
  Forall (fun s => set_len s <= 65535) (IPFix.Sets i) ->
  let image := header (snd (IPFix.Len i)) ++
               concat (map IPFixSet.wire (map finalize (IPFix.Sets i))) in
  fst (IPFix.SerializeTo i b) = Ok (poke image (fresh data)) /\
  length image = length data.
Proof.
  intros Hv Hb Hs image.
  rewrite (SerializeTo_run i b data Hb). cbn [fst].
  pose proof (IPFix_Len_nonneg i) as Hn.
  pose proof (header_end_pos i) as Hh.
  assert (Hl : len data = fst (IPFix.Len i))
    by (apply PrependBytes_len with (b := b); [lia|assumption]).
  pose proof (IPFix_Len_fst i) as Hf.
  pose proof (total_wire_finalize (IPFix.Sets i)) as Hw.
  assert (Hhd : len (header (snd (IPFix.Len i))) = header_end i).
  { rewrite IPFix_Len_snd. unfold header, header_end. cbn [IPFix.Ver].
    destruct Hv as [-> | ->]; reflexivity. }
  assert (Hi : len image = len data).
  { unfold image. rewrite len_app, len_concat_map. lia. }
  split; [|unfold len in Hi; lia].
  rewrite place_sets_contiguous.
  - change (poke image (fresh data)) with (store_at 0 image (fresh data)).
    unfold image.
    rewrite store_at_app
      by (pose proof (len_fresh data); unfold len in *; simpl; lia).
    replace (Z.to_nat (header_end i))
      with (0 + length (header (snd (IPFix.Len i))))%nat
      by (unfold len in Hhd; lia).
    reflexivity.
  - lia.
  - rewrite store_at_len, len_fresh. lia.
  - now apply finalize_exact.
Qed.

(** * The claims *)

(** ** Fields *)

(** C5. The byte length of a field is 4 when bit 15 of its type code is
    clear and 8 when it is set.  [IPFixField.Len] is a function of the
    field alone that returns a number and no updated field, and its value
    is that of the field that keeps the type code and nothing else: it
    reads only the type code. *)
Theorem IPFixField_Len_enterprise_bit (f : IPFixField.t) :
  IPFixField.Len f = (if Z.testbit (IPFixField.Type_ f) 15 then 8 else 4) /\
  IPFixField.Len f
  = IPFixField.Len (IPFixField.mk EmptyString (IPFixField.Type_ f) 0 0 0).
Proof.
  unfold IPFixField.Len. rewrite !IsEnterprise_testbit. cbn [IPFixField.Type_].
  destruct (Z.testbit (IPFixField.Type_ f) 15); split; reflexivity.
Qed.

(** C6. In a region with room for the field at offset [b], [encode] stores
    the type code (2 bytes), then the declared length (2 bytes), then, only
    if bit 15 of the type code is set, the enterprise number (4 bytes), big
    endian, and nothing else.  The field of type 0x8005, length 4 and
    enterprise number 12345 encodes to 80 05 00 04 00 00 30 39. *)
Theorem IPFixField_encode_layout :
  (forall (f : IPFixField.t) (b : slice) (d : mem),
      0 <= b -> b + IPFixField.Len f <= len d ->
      IPFixField.encode f b d
      = Ok (tt, store_at (Z.to_nat b)
                  (be16 (IPFixField.Type_ f) ++ be16 (IPFixField.Length f) ++
                   (if Z.testbit (IPFixField.Type_ f) 15
                    then be32 (IPFixField.EnterpriseNumber f) else []))
                  d)) /\
  (forall data : list byte,
      len data = 8 ->
      exists d', IPFixField.encode field_enterprise 0 (fresh data)
                 = Ok (tt, d') /\
                 vals d' = [x80; x05; x00; x04; x00; x00; x30; x39] /\
                 once d').
Proof.
  split.
  - intros f b d Hb Hd. rewrite Field_Len_wire in Hd.
    now apply Field_encode_writes.
  - intros data Hd. eexists. split.
    + apply Field_encode_writes; [lia|]. rewrite len_fresh, Hd.
      vm_compute. discriminate.
    + change (store_at (Z.to_nat 0) (IPFixField.wire field_enterprise)
                       (fresh data))
        with (poke (IPFixField.wire field_enterprise) (fresh data)).
      destruct (once_poke_fresh (IPFixField.wire field_enterprise) data)
        as [H1 H2]; [unfold len in Hd; simpl; lia|].
      split; [rewrite H2; reflexivity|assumption].
Qed.

Lemma IPFixField_encode_layout_enterprise :
  0 <= 0 /\
  0 + IPFixField.Len field_enterprise <= len (fresh (repeat xff 8)) /\
  IPFixField.encode field_enterprise 0 (fresh (repeat xff 8))
  = Ok (tt, store_at 0 [x80; x05; x00; x04; x00; x00; x30; x39]
                     (fresh (repeat xff 8))).
Proof.
  split; [lia|]. split; [vm_compute; discriminate|].
  apply (proj1 IPFixField_encode_layout field_enterprise 0
               (fresh (repeat xff 8))).
  - lia.
  - vm_compute. discriminate.
Defined.

(** ** Templates *)

(** C7, as the code has it.  The field count of a template made by
    [NewIPFixTemplate] is the number of fields reduced modulo 2^16 (the
    count is a [uint16]); it is the number of fields whenever there are at
    most 65535 of them.  It is derived from the list, which is stored as
    given.  The byte length is 4 plus the byte lengths of the fields. *)
Theorem NewIPFixTemplate_count_and_Len (id : Z) (fields : list IPFixField.t) :
  let t0 := IPFixTemplate.NewIPFixTemplate id fields in
  IPFixTemplate.FieldCount t0 = len fields mod 65536 /\
  (len fields <= 65535 -> IPFixTemplate.FieldCount t0 = len fields) /\
  IPFixTemplate.Fields t0 = fields /\
  IPFixTemplate.ID t0 = id /\
  IPFixTemplate.Len t0 = 4 + total IPFixField.Len fields.
Proof.
  cbn zeta. repeat split.
  - intros H. apply uint16_small. pose proof (len_nonneg fields). lia.
  - apply Template_Len_total.
Qed.

Lemma NewIPFixTemplate_count_and_Len_two :
  len [field_plain; field_enterprise] <= 65535 /\
  IPFixTemplate.FieldCount
    (IPFixTemplate.NewIPFixTemplate 256 [field_plain; field_enterprise]) = 2.
Proof.
  split; [vm_compute; discriminate|].
  apply (proj1 (proj2 (NewIPFixTemplate_count_and_Len
                         256 [field_plain; field_enterprise]))).
  vm_compute. discriminate.
Defined.

(** C7 as stated fails on a template of 65536 fields: its stored field
    count is 0. *)
Lemma NewIPFixTemplate_64k_fields :
  len fields_64k = 65536 /\
  IPFixTemplate.FieldCount (IPFixTemplate.NewIPFixTemplate 256 fields_64k) = 0 /\
  IPFixTemplate.FieldCount (IPFixTemplate.NewIPFixTemplate 256 fields_64k)
  <> len fields_64k.
Proof.
  assert (H : len fields_64k = 65536) by (vm_compute; reflexivity).
  assert (H0 : IPFixTemplate.FieldCount
                 (IPFixTemplate.NewIPFixTemplate 256 fields_64k) = 0)
    by (vm_compute; reflexivity).
  repeat split; try assumption. rewrite H, H0. discriminate.
Qed.

(** ** Sets *)

(** C4, as the code has it.  [IPFixSet.Len] returns 4 plus the byte
    lengths of the entries and stores that number reduced modulo 2^16 (the
    length field is a [uint16]); the stored length is the returned one
    whenever the latter is at most 65535.  A subsequent [encode], in a
    region with room for the set at offset [b], stores exactly that many
    bytes and no other: the 4-byte header, with the stored length, then
    every entry's encoding in order. *)
Theorem IPFixSet_Len_then_encode (s : IPFixSet.t) :
  let n := 4 + total Entry.Len (IPFixSet.SetEntries s) in
  let s' := snd (IPFixSet.Len s) in
  fst (IPFixSet.Len s) = n /\
  IPFixSet.Length s' = n mod 65536 /\
  (n <= 65535 -> IPFixSet.Length s' = n) /\
  forall (b : slice) (d : mem),
    0 <= b -> b + n <= len d ->
    exists d',
      IPFixSet.encode s' b d = Ok (tt, d') /\
      d' = store_at (Z.to_nat b)
             (be16 (IPFixSet.ID s) ++ be16 (IPFixSet.Length s') ++
              concat (map Entry.wire (IPFixSet.SetEntries s))) d /\
      len d' = len d /\
      stores d' = stores d + n.
Proof.
  cbn zeta. pose proof (Set_Len_total s) as Hn.
  pose proof (Set_Len_ge4 s) as H4.
  split; [assumption|]. split; [now rewrite Set_Len_stored, Hn|].
  split.
  - intros Hs. rewrite Set_Len_stored, Hn. apply uint16_small. lia.
  - intros b d Hb Hd.
    pose proof (Set_Len_wire (snd (IPFixSet.Len s))) as Hw.
    rewrite Set_Len_again, Hn in Hw.
    eexists. split; [apply Set_encode_writes; lia|].
    split; [reflexivity|]. split; [apply store_at_len|].
    rewrite stores_store_at by (unfold len in *; lia). lia.
Qed.

Lemma IPFixSet_Len_then_encode_small :
  exists d',
    IPFixSet.encode (snd (IPFixSet.Len set_small)) 0 (fresh (repeat xff 8))
    = Ok (tt, d') /\
    d' = store_at 0 [x01; x00; x00; x08; x01; x02; x03; x04]
                  (fresh (repeat xff 8)) /\
    len d' = 8 /\ stores d' = 8.
Proof.
  destruct (IPFixSet_Len_then_encode set_small) as (_ & _ & _ & H).
  apply (H 0 (fresh (repeat xff 8))).
  - lia.
  - vm_compute. discriminate.
Defined.

(** C4 as stated fails on a set of one record of 65532 bytes: the byte
    length is 65536 and the stored length is 0. *)
Lemma IPFixSet_Len_64k_stored :
  4 + total Entry.Len (IPFixSet.SetEntries set_64k) = 65536 /\
  IPFixSet.Length (snd (IPFixSet.Len set_64k)) = 0 /\
  IPFixSet.Length (snd (IPFixSet.Len set_64k))
  <> 4 + total Entry.Len (IPFixSet.SetEntries set_64k).
Proof.
  assert (H : 4 + total Entry.Len (IPFixSet.SetEntries set_64k) = 65536)
    by (vm_compute; reflexivity).
  assert (H0 : IPFixSet.Length (snd (IPFixSet.Len set_64k)) = 0)
    by (vm_compute; reflexivity).
  repeat split; try assumption. rewrite H, H0. discriminate.
Qed.

(** ** Idempotence *)

Lemma IPFix_Len_again (i : IPFix.t) :
  IPFix.Len (snd (IPFix.Len i)) = IPFix.Len i.
Proof.
  rewrite (surjective_pairing (IPFix.Len (snd (IPFix.Len i)))).
  rewrite (surjective_pairing (IPFix.Len i)) at 3.
  assert (Hf : fst (IPFix.Len (snd (IPFix.Len i))) = fst (IPFix.Len i)).
  { rewrite !IPFix_Len_fst, IPFix_Len_snd.
    unfold header_end. cbn [IPFix.Ver IPFix.Sets].
    rewrite total_map. reflexivity. }
  f_equal; [assumption|].
  rewrite IPFix_Len_snd, Hf. rewrite IPFix_Len_snd.
  cbn [IPFix.Ver IPFix.SysUpTime IPFix.Timestamp IPFix.FlowSeq
       IPFix.DomainID IPFix.SourceID IPFix.Sets].
  f_equal. rewrite map_map. reflexivity.
Qed.

(** C8. Calling [Len] twice in succession on a set, or on a packet,
    returns the same value both times and leaves the same stored length
    (indeed the same set, the same packet) both times. *)
Theorem Len_twice :
  (forall s : IPFixSet.t,
      let r1 := IPFixSet.Len s in
      let r2 := IPFixSet.Len (snd r1) in
      fst r2 = fst r1 /\
      IPFixSet.Length (snd r2) = IPFixSet.Length (snd r1) /\
      snd r2 = snd r1) /\
  (forall i : IPFix.t,
      let r1 := IPFix.Len i in
      let r2 := IPFix.Len (snd r1) in
      fst r2 = fst r1 /\
      IPFix.Length (snd r2) = IPFix.Length (snd r1) /\
      map IPFixSet.Length (IPFix.Sets (snd r2))
      = map IPFixSet.Length (IPFix.Sets (snd r1)) /\
      snd r2 = snd r1).
Proof.
  split.
  - intros s. cbn zeta. rewrite Set_Len_again. repeat split.
  - intros i. cbn zeta. rewrite IPFix_Len_again. repeat split.
Qed.

(** ** Decoding *)

(** C9. Whatever the bytes and the packet builder, [decodeIPFix] returns
    the error "Not Implemented yet" and leaves the builder as it was:
    nothing is parsed. *)
Theorem decodeIPFix_not_implemented
  (PacketBuilder : Type) (data : list byte) (p : PacketBuilder) :
  decodeIPFix data p = (Some (errors_New "Not Implemented yet"), p).
Proof. reflexivity. Qed.

(** ** The packet header and the sets *)

Lemma split_at_header (i : IPFix.t) (ss : list IPFixSet.t) (d : mem) :
  header_end i <= len d ->
  Forall short_stored ss ->
  let out := vals (place_sets (header_end i) ss (store_at 0 (header i) d)) in
  out = header i ++ skipn (length (header i)) out.
Proof.
  intros Hd Hs out.
  rewrite <- (place_sets_header i ss d Hd Hs) at 1.
  symmetry. apply firstn_skipn.
Qed.

Lemma Ver_Len (i : IPFix.t) : IPFix.Ver (snd (IPFix.Len i)) = IPFix.Ver i.
Proof. now rewrite IPFix_Len_snd. Qed.

Lemma Sets_Len (i : IPFix.t) :
  IPFix.Sets (snd (IPFix.Len i)) = map finalize (IPFix.Sets i).
Proof. now rewrite IPFix_Len_snd. Qed.

Lemma header_end_Len (i : IPFix.t) :
  header_end (snd (IPFix.Len i)) = header_end i.
Proof. unfold header_end. now rewrite Ver_Len. Qed.

Lemma region_len (i : IPFix.t) (b : SerializeBuffer.t) (data : list byte) :
  SerializeBuffer.PrependBytes b (fst (IPFix.Len i)) = inr data ->
  len (fresh data) = fst (IPFix.Len i) /\
  header_end (snd (IPFix.Len i)) <= len (fresh data).
Proof.
  intros Hb.
  pose proof (IPFix_Len_nonneg i). pose proof (header_end_pos i).
  assert (Hl : len data = fst (IPFix.Len i))
    by (apply PrependBytes_len with (b := b); [lia|assumption]).
  rewrite len_fresh, header_end_Len. lia.
Qed.



(** One data set of one record 01 02 03 04: the total length 24 is at
    [2:4], the set header is 01 00 00 08 and the record follows. *)
Example SerializeTo_v10_one_set :
  exists d,
    fst (IPFix.SerializeTo packet_v10_one_set plain_buffer) = Ok d /\
    vals d = [x00; x0a; x00; x18; x00; x00; x03; xe8;
              x00; x00; x00; x01; x00; x00; x00; x64;
              x01; x00; x00; x08; x01; x02; x03; x04] /\
    once d.
Proof.
  destruct (fst (IPFix.SerializeTo packet_v10_one_set plain_buffer))
    as [d| |] eqn:E; try (vm_compute in E; discriminate).
  exists d. vm_compute in E. injection E as <-.
  split; [reflexivity|]. split; [reflexivity|].
  repeat constructor.
Qed.



(** ** The version-9 header *)

Lemma SerializeTo_v9_header
  (i : IPFix.t) (b : SerializeBuffer.t) (data : list byte) :
  IPFix.Ver i = 9 ->
  SerializeBuffer.PrependBytes b (fst (IPFix.Len i)) = inr data ->
  exists d,
    IPFix.SerializeTo i b = (Ok d, snd (IPFix.Len i)) /\
    vals d = header9 (snd (IPFix.Len i)) ++ skipn 20 (vals d).
Proof.
  intros Hv Hb.
  pose proof (SerializeTo_run i b data Hb) as Hrun.
  destruct (region_len i b data Hb) as [Hl Hr].
  assert (Hv' : IPFix.Ver (snd (IPFix.Len i)) = 9) by now rewrite Ver_Len.
  destruct (header_len_v9 _ Hv') as [Hh1 Hh2].
  rewrite Hh2 in Hrun.
  eexists. split; [exact Hrun|].
  pose proof (split_at_header (snd (IPFix.Len i)) (map finalize (IPFix.Sets i))
                (fresh data) Hr (Forall_finalize_short (IPFix.Sets i))) as Hsp.
  cbn zeta in Hsp. rewrite header_end_Len, Hh1, Hh2 in Hsp. exact Hsp.
Qed.

Lemma v9_count_bytes (i : IPFix.t) (d : mem) :
  vals d = header9 (snd (IPFix.Len i)) ++ skipn 20 (vals d) ->
  bytes_at 2 4 (vals d) = be16 (uint16 (entry_count i)).
Proof.
  intros H. rewrite H. unfold header9. rewrite entry_count_Len. reflexivity.
Qed.

(** C2, as the code has it.  For a version-9 packet whose bytes the
    buffer reserves, [SerializeTo] writes at bytes [2:4] the number of set
    entries summed over all the sets of the packet (not the number of
    sets), reduced modulo 2^16, big endian: read back, the two bytes give
    the number of entries whenever it is at most 65535, and a packet with
    3 entries in all has 00 03 there however the entries are grouped. *)
Theorem SerializeTo_v9_count
  (i : IPFix.t) (b : SerializeBuffer.t) (data : list byte) :
  IPFix.Ver i = 9 ->
  SerializeBuffer.PrependBytes b (fst (IPFix.Len i)) = inr data ->
  exists d,
    fst (IPFix.SerializeTo i b) = Ok d /\
    bytes_at 2 4 (vals d) = be16 (entry_count i mod 65536) /\
    Uint16 (bytes_at 2 4 (vals d)) = entry_count i mod 65536 /\
    (entry_count i <= 65535 -> Uint16 (bytes_at 2 4 (vals d)) = entry_count i) /\
    (entry_count i = 3 -> bytes_at 2 4 (vals d) = [x00; x03]).
Proof.
  intros Hv Hb.
  destruct (SerializeTo_v9_header i b data Hv Hb) as (d & Hrun & Hsp).
  apply v9_count_bytes in Hsp. unfold uint16 in Hsp.
  assert (Hc : 0 <= entry_count i)
    by (apply total_nonneg; intros; apply len_nonneg).
  assert (Hu : Uint16 (bytes_at 2 4 (vals d)) = entry_count i mod 65536).
  { rewrite Hsp, Uint16_be16. apply Z.mod_mod. lia. }
  exists d. split; [now rewrite Hrun|]. split; [exact Hsp|].
  split; [exact Hu|]. split.
  - intros Hs. rewrite Hu. apply Z.mod_small. lia.
  - intros H3. rewrite Hsp, H3. reflexivity.
Qed.

Lemma SerializeTo_v9_count_small :
  IPFix.Ver packet_v9_small = 9 /\
  SerializeBuffer.PrependBytes plain_buffer (fst (IPFix.Len packet_v9_small))
  = inr (repeat xff 31) /\
  entry_count packet_v9_small = 3 /\
  len (IPFix.Sets packet_v9_small) = 2 /\
  exists d,
    fst (IPFix.SerializeTo packet_v9_small plain_buffer) = Ok d /\
    bytes_at 2 4 (vals d) = [x00; x03].
Proof.
  assert (Hv : IPFix.Ver packet_v9_small = 9) by reflexivity.
  assert (Hb : SerializeBuffer.PrependBytes plain_buffer
                 (fst (IPFix.Len packet_v9_small)) = inr (repeat xff 31))
    by (vm_compute; reflexivity).
  assert (Hc : entry_count packet_v9_small = 3) by reflexivity.
  split; [exact Hv|]. split; [exact Hb|]. split; [exact Hc|].
  split; [reflexivity|].
  destruct (SerializeTo_v9_count packet_v9_small plain_buffer
              (repeat xff 31) Hv Hb) as (d & H1 & _ & _ & _ & H2).
  exists d. split; [exact H1|exact (H2 Hc)].
Defined.

(** C2 as stated fails on a version-9 packet of 65536 entries: bytes
    [2:4] hold 00 00, which is not the number of entries. *)
Lemma SerializeTo_v9_64k_entries :
  IPFix.Ver packet_v9_64k = 9 /\
  entry_count packet_v9_64k = 65536 /\
  exists d,
    fst (IPFix.SerializeTo packet_v9_64k plain_buffer) = Ok d /\
    bytes_at 2 4 (vals d) = [x00; x00] /\
    Uint16 (bytes_at 2 4 (vals d)) <> entry_count packet_v9_64k.
Proof.
  assert (Hc : entry_count packet_v9_64k = 65536) by (vm_compute; reflexivity).
  split; [reflexivity|]. split; [exact Hc|].
  destruct (fst (IPFix.SerializeTo packet_v9_64k plain_buffer))
    as [d| |] eqn:E; try (vm_compute in E; discriminate).
  exists d. split; [reflexivity|].
  assert (Hd : bytes_at 2 4 (vals d) = [x00; x00]).
  { vm_compute in E. injection E as <-. reflexivity. }
  split; [exact Hd|]. rewrite Hd, Hc. vm_compute. discriminate.
Qed.

(** ** Wrap-around *)

(** C10. The 16-bit derived quantities are stored reduced modulo 2^16
    while the lengths are returned whole: [IPFixSet.Len] returns 4 plus
    the entry lengths and stores that number modulo 2^16; [IPFix.Len]
    returns the header length plus the set lengths and stores that number
    modulo 2^16; the version-9 entry count is written as the sum modulo
    2^16.  Whenever the true total exceeds 65535 the stored or written
    value differs from it. *)
Theorem derived_lengths_wrap :
  (forall s : IPFixSet.t,
      let n := 4 + total Entry.Len (IPFixSet.SetEntries s) in
      fst (IPFixSet.Len s) = n /\
      IPFixSet.Length (snd (IPFixSet.Len s)) = n mod 65536 /\
      (65535 < n ->
       IPFixSet.Length (snd (IPFixSet.Len s)) <> fst (IPFixSet.Len s))) /\
  (forall i : IPFix.t,
      let n := (if IPFix.Ver i =? 9 then 20 else 16)
               + total (fun s => fst (IPFixSet.Len s)) (IPFix.Sets i) in
      fst (IPFix.Len i) = n /\
      IPFix.Length (snd (IPFix.Len i)) = n mod 65536 /\
      (65535 < n -> IPFix.Length (snd (IPFix.Len i)) <> fst (IPFix.Len i))) /\
  (forall (i : IPFix.t) (b : SerializeBuffer.t) (data : list byte),
      IPFix.Ver i = 9 ->
      SerializeBuffer.PrependBytes b (fst (IPFix.Len i)) = inr data ->
      exists d,
        fst (IPFix.SerializeTo i b) = Ok d /\
        bytes_at 2 4 (vals d) = be16 (uint16 (entry_count i)) /\
        Uint16 (bytes_at 2 4 (vals d)) = entry_count i mod 65536 /\
        (65535 < entry_count i ->
         Uint16 (bytes_at 2 4 (vals d)) <> entry_count i)).
Proof.
  split; [|split].
  - intros s n. pose proof (Set_Len_total s) as Hn. fold n in Hn.
    split; [exact Hn|]. rewrite Set_Len_stored, Hn.
    split; [reflexivity|]. apply uint16_wraps.
  - intros i n. pose proof (IPFix_Len_fst i) as Hn.
    change (header_end i + total set_len (IPFix.Sets i)) with n in Hn.
    split; [exact Hn|]. rewrite IPFix_Len_snd. cbn [IPFix.Length]. rewrite Hn.
    split; [reflexivity|]. apply uint16_wraps.
  - intros i b data Hv Hb.
    destruct (SerializeTo_v9_header i b data Hv Hb) as (d & Hrun & Hsp).
    apply v9_count_bytes in Hsp.
    assert (Hu : Uint16 (bytes_at 2 4 (vals d)) = entry_count i mod 65536).
    { rewrite Hsp, Uint16_be16. unfold uint16. apply Z.mod_mod. lia. }
    exists d. split; [now rewrite Hrun|]. split; [exact Hsp|].
    split; [exact Hu|]. intros Hw. rewrite Hu. now apply uint16_wraps.
Qed.

Lemma derived_lengths_wrap_64k :
  65535 < 4 + total Entry.Len (IPFixSet.SetEntries set_64k) /\
  fst (IPFixSet.Len set_64k) = 65536 /\
  IPFixSet.Length (snd (IPFixSet.Len set_64k)) <> fst (IPFixSet.Len set_64k) /\
  fst (IPFix.Len packet_v10_64k) = 65536 /\
  IPFix.Length (snd (IPFix.Len packet_v10_64k))
  <> fst (IPFix.Len packet_v10_64k).
Proof.
  assert (H1 : 65535 < 4 + total Entry.Len (IPFixSet.SetEntries set_64k))
    by (vm_compute; reflexivity).
  assert (H2 : 65535 < (if IPFix.Ver packet_v10_64k =? 9 then 20 else 16)
                       + total (fun s => fst (IPFixSet.Len s))
                               (IPFix.Sets packet_v10_64k))
    by (vm_compute; reflexivity).
  split; [exact H1|]. split; [vm_compute; reflexivity|].
  split; [exact (proj2 (proj2 (proj1 derived_lengths_wrap set_64k)) H1)|].
  split; [vm_compute; reflexivity|].
  exact (proj2 (proj2 (proj1 (proj2 derived_lengths_wrap) packet_v10_64k)) H2).
Defined.

(** * Further properties of the encoder *)

(** ** What the sets leave behind does not depend on the header *)

Lemma vals_poke_ext (bs : list byte) :
  forall d1 d2, vals d1 = vals d2 -> vals (poke bs d1) = vals (poke bs d2).
Proof.
  induction bs as [|x bs IH]; intros [|c1 d1] [|c2 d2] H;
    simpl in *; try discriminate; auto.
  injection H as _ H. f_equal. now apply IH.
Qed.

Lemma vals_store_at_ext (bs : list byte) (p : nat) :
  forall d1 d2, vals d1 = vals d2 ->
                vals (store_at p bs d1) = vals (store_at p bs d2).
Proof.
  induction p as [|p IH]; intros d1 d2 H.
  - rewrite !store_at_0. now apply vals_poke_ext.
  - destruct d1 as [|c1 d1], d2 as [|c2 d2]; simpl in H; try discriminate.
    + reflexivity.
    + rewrite !store_at_S. injection H as Hc H. simpl. f_equal; auto.
Qed.

Lemma store_at_agree (bs : list byte) :
  forall q p d1 d2,
    (q <= p)%nat -> length d1 = length d2 ->
    skipn q (vals d1) = skipn q (vals d2) ->
    skipn q (vals (store_at p bs d1)) = skipn q (vals (store_at p bs d2)).
Proof.
  induction q as [|q IH]; intros p d1 d2 Hq Hl H.
  - simpl in *. now apply vals_store_at_ext.
  - destruct p as [|p]; [lia|].
    destruct d1 as [|c1 d1], d2 as [|c2 d2]; simpl in Hl; try discriminate.
    + reflexivity.
    + rewrite !store_at_S. simpl in *. apply IH; [lia|lia|assumption].
Qed.

Lemma place_sets_agree (ss : list IPFixSet.t) :
  forall offset q d1 d2,
    0 <= offset -> (q <= Z.to_nat offset)%nat ->
    Forall short_stored ss ->
    length d1 = length d2 ->
    skipn q (vals d1) = skipn q (vals d2) ->
    skipn q (vals (place_sets offset ss d1))
    = skipn q (vals (place_sets offset ss d2)).
Proof.
  induction ss as [|s ss IH]; intros offset q d1 d2 Ho Hq Hs Hl H;
    cbn [place_sets].
  - assumption.
  - inversion Hs as [|s0 ss0 [Hs1 Hs2] Hss]; subst.
    apply IH; [lia|lia|assumption| |].
    + now rewrite !store_at_length.
    + now apply store_at_agree.
Qed.

(** The bytes of the region [SerializeTo] leaves: what it writes of the
    header, then what the reserved bytes held up to the end of the header
    area, then the bytes the sets leave. *)
Lemma SerializeTo_bytes (i : IPFix.t) (b : SerializeBuffer.t)
  (data : list byte) :
  SerializeBuffer.PrependBytes b (fst (IPFix.Len i)) = inr data ->
  exists d,
    IPFix.SerializeTo i b = (Ok d, snd (IPFix.Len i)) /\
    len d = fst (IPFix.Len i) /\
    vals d = header (snd (IPFix.Len i)) ++
             bytes_at (length (header (snd (IPFix.Len i))))
                      (Z.to_nat (header_end i)) data ++
             body_bytes i data.
Proof.
  intros Hb.
  pose proof (SerializeTo_run i b data Hb) as Hrun.
  destruct (region_len i b data Hb) as [Hl Hr].
  pose proof (header_end_pos i) as Hp.
  pose proof (header_len (snd (IPFix.Len i))) as Hh.
  rewrite header_end_Len in Hh, Hr.
  set (h := header (snd (IPFix.Len i))) in *.
  set (ss := map finalize (IPFix.Sets i)) in *.
  eexists. split; [exact Hrun|]. split.
  { unfold len. rewrite place_sets_length, store_at_length. exact Hl. }
  set (d0 := store_at 0 h (fresh data)).
  assert (Hd0 : vals d0 = h ++ skipn (length h) data).
  { unfold d0. rewrite vals_store_at by (unfold len in *; simpl; lia).
    now rewrite vals_fresh. }
  assert (Hfront : firstn (Z.to_nat (header_end i))
                          (vals (place_sets (header_end i) ss d0))
                   = firstn (Z.to_nat (header_end i)) (vals d0)).
  { unfold vals. rewrite !firstn_map. f_equal.
    apply place_sets_firstn; [lia|apply Forall_finalize_short]. }
  assert (Hback : skipn (Z.to_nat (header_end i))
                        (vals (place_sets (header_end i) ss d0))
                  = body_bytes i data).
  { unfold body_bytes. fold ss.
    apply place_sets_agree;
      [lia|lia|apply Forall_finalize_short| |].
    - unfold d0. now rewrite store_at_length.
    - rewrite Hd0, vals_fresh.
      rewrite skipn_app.
      rewrite (skipn_all2 h) by (unfold len in Hh; lia).
      rewrite skipn_skipn. simpl. f_equal. unfold len in Hh. lia. }
  rewrite <- (firstn_skipn (Z.to_nat (header_end i))
                (vals (place_sets (header_end i) ss d0))).
  rewrite Hfront, Hback, Hd0, app_assoc. f_equal.
  rewrite firstn_app. rewrite (firstn_all2 h) by (unfold len in Hh; lia).
  reflexivity.
Qed.

(** ** Outcome of SerializeTo *)

(** X1. Whatever the version and the size of the packet, [SerializeTo]
    fails exactly when the buffer refuses the reservation, with the
    buffer's error; otherwise it succeeds without fault and the region has
    the length [Len] returned.  In both cases the packet is left with the
    stored lengths that [Len] assigns. *)
Theorem SerializeTo_outcome (i : IPFix.t) (b : SerializeBuffer.t) :
  match SerializeBuffer.PrependBytes b (fst (IPFix.Len i)) with
  | inl e => IPFix.SerializeTo i b = (Err e, snd (IPFix.Len i))
  | inr data =>
      exists d, IPFix.SerializeTo i b = (Ok d, snd (IPFix.Len i)) /\
                len d = fst (IPFix.Len i) /\ len d = len data
  end.
Proof.
  destruct (SerializeBuffer.PrependBytes b (fst (IPFix.Len i)))
    as [e|data] eqn:Hb.
  - unfold IPFix.SerializeTo.
    destruct (IPFix.Len i) as [plen i'] eqn:E. cbn [fst snd] in *.
    now rewrite Hb.
  - destruct (SerializeTo_bytes i b data Hb) as (d & Hrun & Hl & _).
    destruct (region_len i b data Hb) as [Hr _].
    exists d. split; [exact Hrun|]. split; [exact Hl|].
    rewrite len_fresh in Hr. lia.
Qed.

Lemma body_bytes_stores (i : IPFix.t) (data : list byte) (h : list byte) :
  header_end i + total set_len (IPFix.Sets i) <= len data ->
  len h <= header_end i ->
  stores (place_sets (header_end i) (map finalize (IPFix.Sets i))
                     (store_at 0 h (fresh data)))
  = len h + total set_len (IPFix.Sets i).
Proof.
  intros Hd Hh.
  pose proof (header_end_pos i). pose proof (len_nonneg h).
  pose proof (total_set_len_nonneg (IPFix.Sets i)).
  pose proof (total_wire_finalize (IPFix.Sets i)) as Hw.
  rewrite place_sets_stores;
    [| lia | rewrite store_at_len, len_fresh, Hw; lia
     | apply Forall_finalize_short].
  rewrite stores_store_at
    by (pose proof (len_fresh data); unfold len in *; simpl; lia).
  rewrite stores_fresh, Hw. lia.
Qed.

(** X2. For a version that is neither 9 nor 10, [SerializeTo] still
    reserves a 16-byte header area and starts the sets at offset 16, but
    it writes only the two version bytes: bytes [2:16] of the output are
    whatever the reserved bytes held, and 14 bytes fewer than [Len]
    returns are stored. *)
Theorem SerializeTo_other_version
  (i : IPFix.t) (b : SerializeBuffer.t) (data : list byte) :
  IPFix.Ver i <> 9 -> IPFix.Ver i <> 10 ->
  SerializeBuffer.PrependBytes b (fst (IPFix.Len i)) = inr data ->
  exists d,
    fst (IPFix.SerializeTo i b) = Ok d /\
    vals d = be16 (IPFix.Ver i) ++ bytes_at 2 16 data ++ body_bytes i data /\
    stores d = fst (IPFix.Len i) - 14 /\
    fst (IPFix.Len i) = 16 + total (fun s => fst (IPFixSet.Len s)) (IPFix.Sets i).
Proof.
  intros H9 H10 Hb.
  destruct (SerializeTo_bytes i b data Hb) as (d & Hrun & Hl & Hv).
  pose proof (SerializeTo_run i b data Hb) as Hrun'.
  rewrite Hrun in Hrun'. injection Hrun' as Hd.
  destruct (region_len i b data Hb) as [Hr _]. rewrite len_fresh in Hr.
  pose proof (IPFix_Len_fst i) as Hf.
  assert (Hh : header (snd (IPFix.Len i)) = be16 (IPFix.Ver i)).
  { unfold header. rewrite Ver_Len.
    replace (IPFix.Ver i =? 10) with false by (symmetry; now apply Z.eqb_neq).
    replace (IPFix.Ver i =? 9) with false by (symmetry; now apply Z.eqb_neq).
    reflexivity. }
  assert (He : header_end i = 16).
  { unfold header_end.
    replace (IPFix.Ver i =? 9) with false by (symmetry; now apply Z.eqb_neq).
    reflexivity. }
  exists d. split; [now rewrite Hrun|]. split; [|split].
  - rewrite Hv, Hh, He. reflexivity.
  - rewrite Hd, Hh. rewrite body_bytes_stores.
    + rewrite Hf, He. change (len (be16 (IPFix.Ver i))) with 2. lia.
    + lia.
    + rewrite He. change (len (be16 (IPFix.Ver i))) with 2. lia.
  - rewrite Hf, He. reflexivity.
Qed.

Lemma SerializeTo_other_version_v5 :
  IPFix.Ver packet_v5 <> 9 /\ IPFix.Ver packet_v5 <> 10 /\
  SerializeBuffer.PrependBytes plain_buffer (fst (IPFix.Len packet_v5))
  = inr (repeat xff 24) /\
  exists d,
    fst (IPFix.SerializeTo packet_v5 plain_buffer) = Ok d /\
    vals d = [x00; x05; xff; xff; xff; xff; xff; xff;
              xff; xff; xff; xff; xff; xff; xff; xff;
              x01; x00; x00; x08; x01; x02; x03; x04] /\
    stores d = 10.
Proof.
  assert (H9 : IPFix.Ver packet_v5 <> 9) by (vm_compute; discriminate).
  assert (H10 : IPFix.Ver packet_v5 <> 10) by (vm_compute; discriminate).
  assert (Hb : SerializeBuffer.PrependBytes plain_buffer
                 (fst (IPFix.Len packet_v5)) = inr (repeat xff 24))
    by (vm_compute; reflexivity).
  split; [exact H9|]. split; [exact H10|]. split; [exact Hb|].
  destruct (SerializeTo_other_version packet_v5 plain_buffer
              (repeat xff 24) H9 H10 Hb) as (d & H1 & H2 & H3 & _).
  exists d. split; [exact H1|]. split; [exact H2|exact H3].
Defined.

(** ** Stale stored lengths *)

Lemma Len_with_lengths (i : IPFix.t) (l : Z) (f : IPFixSet.t -> Z) :
  IPFix.Len (with_lengths i l f) = IPFix.Len i.
Proof.
  assert (Hf : fst (IPFix.Len (with_lengths i l f)) = fst (IPFix.Len i)).
  { rewrite !IPFix_Len_fst. unfold header_end, with_lengths.
    cbn [IPFix.Ver IPFix.Sets]. rewrite total_map. reflexivity. }
  apply injective_projections; [exact Hf|].
  rewrite !IPFix_Len_snd. rewrite Hf. unfold with_lengths.
  cbn [IPFix.Ver IPFix.SysUpTime IPFix.Timestamp IPFix.FlowSeq
       IPFix.DomainID IPFix.SourceID IPFix.Sets].
  f_equal. rewrite map_map. reflexivity.
Qed.

(** X3. The values found in the stored length fields of the packet and of
    its sets when [SerializeTo] is called have no influence on what it
    writes nor on the lengths it leaves: every length is recomputed
    first. *)
Theorem SerializeTo_ignores_stored_lengths
  (i : IPFix.t) (l : Z) (f : IPFixSet.t -> Z) (b : SerializeBuffer.t) :
  IPFix.SerializeTo (with_lengths i l f) b = IPFix.SerializeTo i b.
Proof.
  unfold IPFix.SerializeTo. now rewrite Len_with_lengths.
Qed.

(** X4. The length field of a version-10 message, read back big endian
    from bytes [2:4] of the output, is the number of bytes of the output
    modulo 2^16: it is the message length whenever the message has at most
    65535 bytes. *)
Theorem SerializeTo_v10_length_field
  (i : IPFix.t) (b : SerializeBuffer.t) (data : list byte) :
  IPFix.Ver i = 10 ->
  SerializeBuffer.PrependBytes b (fst (IPFix.Len i)) = inr data ->
  exists d,
    fst (IPFix.SerializeTo i b) = Ok d /\
    Uint16 (bytes_at 2 4 (vals d)) = len (vals d) mod 65536 /\
    (len (vals d) <= 65535 -> Uint16 (bytes_at 2 4 (vals d)) = len (vals d)).
Proof.
  intros Hv Hb.
  destruct (SerializeTo_bytes i b data Hb) as (d & Hrun & Hl & Hvals).
  pose proof (IPFix_Len_nonneg i). pose proof (header_end_pos i).
  assert (Hh : header (snd (IPFix.Len i)) = header10 (snd (IPFix.Len i))).
  { unfold header. now rewrite Ver_Len, Hv. }
  assert (Hu : Uint16 (bytes_at 2 4 (vals d)) = len (vals d) mod 65536).
  { rewrite len_vals, Hl. rewrite Hvals, Hh. unfold header10.
    rewrite IPFix_Len_snd. cbn [IPFix.Length].
    change (bytes_at 2 4 _) with (be16 (uint16 (fst (IPFix.Len i)))).
    rewrite Uint16_be16. unfold uint16. apply Z.mod_mod. lia. }
  exists d. split; [now rewrite Hrun|]. split; [exact Hu|].
  intros Hs. rewrite Hu. apply Z.mod_small. rewrite len_vals, Hl in *. lia.
Qed.

Lemma SerializeTo_v10_length_field_small :
  IPFix.Ver packet_v10_small = 10 /\
  SerializeBuffer.PrependBytes plain_buffer (fst (IPFix.Len packet_v10_small))
  = inr (repeat xff 44) /\
  exists d,
    fst (IPFix.SerializeTo packet_v10_small plain_buffer) = Ok d /\
    Uint16 (bytes_at 2 4 (vals d)) = len (vals d) mod 65536.
Proof.
  assert (Hv : IPFix.Ver packet_v10_small = 10) by reflexivity.
  assert (Hb : SerializeBuffer.PrependBytes plain_buffer
                 (fst (IPFix.Len packet_v10_small)) = inr (repeat xff 44))
    by (vm_compute; reflexivity).
  split; [exact Hv|]. split; [exact Hb|].
  destruct (SerializeTo_v10_length_field packet_v10_small plain_buffer
              (repeat xff 44) Hv Hb) as (d & H1 & H2 & _).
  exists d. split; [exact H1|exact H2].
Defined.

(** ** Templates and records as entries *)

(** X5. In a region with room for the template at offset [b],
    [IPFixTemplate.encode] stores the id, the stored field count, then
    every field's encoding in order, and nothing else: [Len] bytes in
    all. *)
Theorem IPFixTemplate_encode_layout
  (t0 : IPFixTemplate.t) (b : slice) (d : mem) :
  0 <= b -> b + IPFixTemplate.Len t0 <= len d ->
  exists d',
    IPFixTemplate.encode t0 b d = Ok (tt, d') /\
    d' = store_at (Z.to_nat b)
           (be16 (IPFixTemplate.ID t0) ++ be16 (IPFixTemplate.FieldCount t0) ++
            concat (map IPFixField.wire (IPFixTemplate.Fields t0))) d /\
    len d' = len d /\
    stores d' = stores d + IPFixTemplate.Len t0.
Proof.
  intros Hb Hd. pose proof (Template_Len_wire t0) as Hw.
  eexists. split; [apply Template_encode_writes; lia|].
  split; [reflexivity|]. split; [apply store_at_len|].
  rewrite stores_store_at by (unfold len in *; lia).
  now rewrite Hw.
Qed.

Lemma IPFixTemplate_encode_layout_two :
  0 <= 0 /\
  0 + IPFixTemplate.Len
        (IPFixTemplate.NewIPFixTemplate 256 [field_plain; field_enterprise])
  <= len (fresh (repeat xff 16)) /\
  exists d',
    IPFixTemplate.encode
      (IPFixTemplate.NewIPFixTemplate 256 [field_plain; field_enterprise])
      0 (fresh (repeat xff 16)) = Ok (tt, d') /\
    d' = store_at 0 [x01; x00; x00; x02; x00; x01; x00; x04;
                     x80; x05; x00; x04; x00; x00; x30; x39]
                  (fresh (repeat xff 16)).
Proof.
  split; [lia|]. split; [vm_compute; discriminate|].
  destruct (IPFixTemplate_encode_layout
              (IPFixTemplate.NewIPFixTemplate 256
                 [field_plain; field_enterprise])
              0 (fresh (repeat xff 16)))
    as (d' & H1 & H2 & _).
  - lia.
  - vm_compute. discriminate.
  - exists d'. split; [exact H1|exact H2].
Defined.

Lemma vals_poke_firstn (bs : list byte) :
  forall d, vals (poke bs d)
            = firstn (length d) bs ++ skipn (length bs) (vals d).
Proof.
  induction bs as [|x bs IH]; intros [|c d]; simpl; auto.
  f_equal. apply IH.
Qed.

(** X6. [IPFixRecord.encode] never faults and never fails: into a slice
    that starts at offset [b] of the region it copies the payload as far
    as the region reaches and drops the rest; the region keeps its length
    and its other bytes. *)
Theorem IPFixRecord_encode_truncates
  (r : IPFixRecord.t) (b : slice) (d : mem) :
  0 <= b <= len d ->
  exists d',
    IPFixRecord.encode r b d = Ok (tt, d') /\
    len d' = len d /\
    vals d' = firstn (Z.to_nat b) (vals d) ++
              firstn (Z.to_nat (len d - b)) (IPFixRecord.Data r) ++
              skipn (Z.to_nat (b + len (IPFixRecord.Data r))) (vals d).
Proof.
  intros Hb. eexists. split; [reflexivity|].
  split; [apply store_at_len|].
  unfold store_at, vals. rewrite map_app. fold (vals (firstn (Z.to_nat b) d)).
  unfold vals at 1. rewrite firstn_map. f_equal.
  fold (vals (poke (IPFixRecord.Data r) (skipn (Z.to_nat b) d))).
  rewrite vals_poke_firstn. rewrite length_skipn.
  unfold vals. rewrite <- skipn_map, skipn_skipn.
  f_equal; f_equal; unfold len in *; lia.
Qed.

Lemma IPFixRecord_encode_truncates_short :
  0 <= 2 <= len (fresh (repeat xff 4)) /\
  exists d',
    IPFixRecord.encode (IPFixRecord.mk [x01; x02; x03; x04]) 2
                       (fresh (repeat xff 4)) = Ok (tt, d') /\
    vals d' = [xff; xff; x01; x02].
Proof.
  assert (Hb : 0 <= 2 <= len (fresh (repeat xff 4)))
    by (split; vm_compute; discriminate).
  split; [exact Hb|].
  destruct (IPFixRecord_encode_truncates
              (IPFixRecord.mk [x01; x02; x03; x04]) 2
              (fresh (repeat xff 4)) Hb) as (d' & H1 & _ & H2).
  exists d'. split; [exact H1|exact H2].
Defined.

(** X7. The byte length of a template is 4, plus 4 for every field, plus
    4 more for every enterprise-specific field; so it lies between
    [4 + 4 n] and [4 + 8 n] for [n] fields. *)
Theorem IPFixTemplate_Len_count (t0 : IPFixTemplate.t) :
  let fs := IPFixTemplate.Fields t0 in
  IPFixTemplate.Len t0 = 4 + 4 * len fs + 4 * enterprise_count fs /\
  4 + 4 * len fs <= IPFixTemplate.Len t0 <= 4 + 8 * len fs.
Proof.
  cbn zeta. rewrite Template_Len_total.
  generalize (IPFixTemplate.Fields t0). intros fs.
  assert (H : total IPFixField.Len fs = 4 * len fs + 4 * enterprise_count fs
              /\ 0 <= enterprise_count fs <= len fs).
  { unfold enterprise_count, len.
    induction fs as [|f fs [IH1 IH2]]; cbn [total fold_right length].
    - simpl. lia.
    - fold (total IPFixField.Len fs).
      fold (total (fun f => if IPFixField.IsEnterprise f then 1 else 0) fs).
      rewrite IH1. unfold IPFixField.Len.
      destruct (IPFixField.IsEnterprise f); lia. }
  lia.
Qed.

(** ** In-place change of a serialized header *)

Lemma put_run (o lo hi : Z) (bs : list byte) (d : mem) :
  0 <= o + lo -> o + hi <= len d -> hi - lo = len bs ->
  exists d',
    put o lo hi bs d = Ok (tt, d') /\
    len d' = len d /\
    vals d' = firstn (Z.to_nat (o + lo)) (vals d) ++ bs ++
              skipn (Z.to_nat (o + hi)) (vals d).
Proof.
  intros H1 H2 H3. unfold put.
  replace (0 <=? o + lo) with true by (symmetry; apply Z.leb_le; lia).
  replace (o + hi <=? len d) with true by (symmetry; apply Z.leb_le; lia).
  eexists. split; [reflexivity|]. split; [apply store_at_len|].
  rewrite vals_store_at by (unfold len in *; lia).
  do 3 f_equal. unfold len in *. lia.
Qed.

Lemma GetVer_run (d : mem) :
  2 <= len d ->
  IPFixHeader.GetVer 0 d = Ok (Uint16 (firstn 2 (vals d)), d).
Proof.
  intros H. unfold IPFixHeader.GetVer, IPFixHeader.load, bind.
  replace (0 + 2 <=? len d) with true by (symmetry; apply Z.leb_le; lia).
  reflexivity.
Qed.

Lemma Len_with_header (i : IPFix.t) (up ts fs dom src : Z) :
  fst (IPFix.Len (with_header i up ts fs dom src)) = fst (IPFix.Len i) /\
  snd (IPFix.Len (with_header i up ts fs dom src))
  = with_header (snd (IPFix.Len i)) up ts fs dom src.
Proof.
  assert (Hf : fst (IPFix.Len (with_header i up ts fs dom src))
               = fst (IPFix.Len i)) by (now rewrite !IPFix_Len_fst).
  split; [exact Hf|]. rewrite !IPFix_Len_snd, Hf. reflexivity.
Qed.

(** A packet and the same packet with other header values serialize to
    regions that have their bytes after the header area in common. *)
Lemma SerializeTo_with_header
  (i : IPFix.t) (up ts fs dom src : Z) (b : SerializeBuffer.t)
  (data : list byte) :
  IPFix.Ver i = 9 \/ IPFix.Ver i = 10 ->
  SerializeBuffer.PrependBytes b (fst (IPFix.Len i)) = inr data ->
  let i' := snd (IPFix.Len i) in
  exists d d2,
    fst (IPFix.SerializeTo i b) = Ok d /\
    fst (IPFix.SerializeTo (with_header i up ts fs dom src) b) = Ok d2 /\
    len (header i') <= len d /\
    vals d = header i' ++ body_bytes i data /\
    vals d2 = header (with_header i' up ts fs dom src) ++ body_bytes i data.
Proof.
  intros Hv Hb i'.
  destruct (Len_with_header i up ts fs dom src) as [Hf Hs].
  destruct (SerializeTo_bytes i b data Hb) as (d & Hrun & Hl & Hvals).
  assert (Hb2 : SerializeBuffer.PrependBytes b
                  (fst (IPFix.Len (with_header i up ts fs dom src)))
                = inr data) by (now rewrite Hf).
  destruct (SerializeTo_bytes _ b data Hb2) as (d2 & Hrun2 & Hl2 & Hvals2).
  rewrite Hs in Hvals2. fold i' in Hvals, Hvals2.
  assert (Hh : forall j, IPFix.Ver j = IPFix.Ver i ->
                         length (header j) = Z.to_nat (header_end i)).
  { intros j Hj. unfold header, header_end. rewrite Hj.
    destruct Hv as [-> | ->]; reflexivity. }
  rewrite (Hh i') in Hvals by (unfold i'; apply Ver_Len).
  rewrite (Hh (with_header i' up ts fs dom src)) in Hvals2
    by (unfold i'; cbn [with_header IPFix.Ver]; apply Ver_Len).
  change (header_end (with_header i up ts fs dom src))
    with (header_end i) in Hvals2.
  change (body_bytes (with_header i up ts fs dom src) data)
    with (body_bytes i data) in Hvals2.
  unfold bytes_at in Hvals, Hvals2.
  rewrite Nat.sub_diag in Hvals, Hvals2. cbn [firstn app] in Hvals, Hvals2.
  exists d, d2. split; [now rewrite Hrun|]. split; [now rewrite Hrun2|].
  split; [|split; assumption].
  pose proof (IPFix_Len_nonneg i).
  unfold len at 1. rewrite (Hh i') by (unfold i'; apply Ver_Len).
  pose proof (header_end_pos i). lia.
Qed.

Lemma header_version (j : IPFix.t) (rest : list byte) :
  IPFix.Ver j = 9 \/ IPFix.Ver j = 10 ->
  Uint16 (firstn 2 (header j ++ rest)) = IPFix.Ver j.
Proof.
  intros Hv.
  assert (H : firstn 2 (header j ++ rest) = be16 (IPFix.Ver j)).
  { destruct Hv as [E|E].
    - destruct (header_len_v9 j E) as [_ ->]. reflexivity.
    - destruct (header_len_v10 j E) as [_ ->]. reflexivity. }
  rewrite H, Uint16_be16. destruct Hv as [-> | ->]; reflexivity.
Qed.

(** Evaluation of a setter on the region [d] of a serialized packet of
    version [Hv], against the bytes [Hd2] of the packet serialized with the
    new value. *)
Ltac patch_header Hv Hlen Hd Hd2 d :=
  let Hver := fresh "Hver" in
  let d' := fresh "d'" in
  let Hp := fresh "Hp" in
  let Hv' := fresh "Hv'" in
  assert (Hver : Uint16 (firstn 2 (vals d)) = IPFix.Ver _)
    by (rewrite Hd, header_version;
        [apply Ver_Len|rewrite Ver_Len, Hv; auto]);
  rewrite IPFix_Len_snd in Hd, Hd2, Hlen;
  unfold header, with_header in Hd, Hd2, Hlen;
  cbn [IPFix.Ver] in Hd, Hd2, Hlen;
  rewrite Hv in *;
  cbv beta iota zeta delta [Z.eqb Pos.eqb] in *;
  unfold IPFixHeader.SetTimestamp, IPFixHeader.SetFlowSeq,
    IPFixHeader.SetSysUptime, IPFixHeader.SetSourceID, PutUint32, bind;
  rewrite ?GetVer_run, ?Hver by (revert Hlen; unfold len; simpl; lia);
  cbv beta iota zeta delta [Z.eqb Pos.eqb];
  match goal with
  | |- exists _, put ?o ?lo ?hi ?bs ?m = _ /\ _ =>
      destruct (put_run o lo hi bs m) as (d' & Hp & _ & Hv');
      [ lia
      | revert Hlen; unfold len; simpl; lia
      | reflexivity
      | exists d'; split; [exact Hp|]; rewrite Hv', Hd, Hd2; reflexivity ]
  end.

(** X9. [IPFixHeader.SetTimestamp] applied to the serialized form of a
    version-9 or version-10 packet succeeds and leaves exactly the bytes
    that serializing the packet with the new timestamp gives: the field is
    found at [8:12] in version 9 and at [4:8] in version 10. *)
Theorem SetTimestamp_as_serialized
  (i : IPFix.t) (ts : Z) (b : SerializeBuffer.t) (data : list byte) :
  IPFix.Ver i = 9 \/ IPFix.Ver i = 10 ->
  SerializeBuffer.PrependBytes b (fst (IPFix.Len i)) = inr data ->
  exists d d2,
    fst (IPFix.SerializeTo i b) = Ok d /\
    fst (IPFix.SerializeTo (with_Timestamp i ts) b) = Ok d2 /\
    exists d', IPFixHeader.SetTimestamp 0 ts d = Ok (tt, d') /\
               vals d' = vals d2.
Proof.
  intros Hv Hb.
  destruct (SerializeTo_with_header i (IPFix.SysUpTime i) ts (IPFix.FlowSeq i)
              (IPFix.DomainID i) (IPFix.SourceID i) b data Hv Hb)
    as (d & d2 & H1 & H2 & Hlen & Hd & Hd2).
  exists d, d2. split; [exact H1|]. split; [exact H2|].
  destruct Hv as [Hv|Hv]; patch_header Hv Hlen Hd Hd2 d.
Qed.

Lemma SetTimestamp_as_serialized_small :
  (IPFix.Ver packet_v9_small = 9 \/ IPFix.Ver packet_v9_small = 10) /\
  SerializeBuffer.PrependBytes plain_buffer (fst (IPFix.Len packet_v9_small))
  = inr (repeat xff 31) /\
  exists d d2,
    fst (IPFix.SerializeTo packet_v9_small plain_buffer) = Ok d /\
    fst (IPFix.SerializeTo (with_Timestamp packet_v9_small 77) plain_buffer)
    = Ok d2 /\
    exists d', IPFixHeader.SetTimestamp 0 77 d = Ok (tt, d') /\
               vals d' = vals d2.
Proof.
  assert (Hv : IPFix.Ver packet_v9_small = 9 \/ IPFix.Ver packet_v9_small = 10)
    by (left; reflexivity).
  assert (Hb : SerializeBuffer.PrependBytes plain_buffer
                 (fst (IPFix.Len packet_v9_small)) = inr (repeat xff 31))
    by (vm_compute; reflexivity).
  split; [exact Hv|]. split; [exact Hb|].
  exact (SetTimestamp_as_serialized packet_v9_small 77 plain_buffer
           (repeat xff 31) Hv Hb).
Defined.

(** X10. [IPFixHeader.SetFlowSeq] applied to the serialized form of a
    version-9 or version-10 packet succeeds and leaves exactly the bytes
    that serializing the packet with the new flow sequence number gives:
    the field is found at [12:16] in version 9 and at [8:12] in version
    10. *)
Theorem SetFlowSeq_as_serialized
  (i : IPFix.t) (fs : Z) (b : SerializeBuffer.t) (data : list byte) :
  IPFix.Ver i = 9 \/ IPFix.Ver i = 10 ->
  SerializeBuffer.PrependBytes b (fst (IPFix.Len i)) = inr data ->
  exists d d2,
    fst (IPFix.SerializeTo i b) = Ok d /\
    fst (IPFix.SerializeTo (with_FlowSeq i fs) b) = Ok d2 /\
    exists d', IPFixHeader.SetFlowSeq 0 fs d = Ok (tt, d') /\
               vals d' = vals d2.
Proof.
  intros Hv Hb.
  destruct (SerializeTo_with_header i (IPFix.SysUpTime i) (IPFix.Timestamp i)
              fs (IPFix.DomainID i) (IPFix.SourceID i) b data Hv Hb)
    as (d & d2 & H1 & H2 & Hlen & Hd & Hd2).
  exists d, d2. split; [exact H1|]. split; [exact H2|].
  destruct Hv as [Hv|Hv]; patch_header Hv Hlen Hd Hd2 d.
Qed.

Lemma SetFlowSeq_as_serialized_small :
  (IPFix.Ver packet_v10_small = 9 \/ IPFix.Ver packet_v10_small = 10) /\
  SerializeBuffer.PrependBytes plain_buffer (fst (IPFix.Len packet_v10_small))
  = inr (repeat xff 44) /\
  exists d d2,
    fst (IPFix.SerializeTo packet_v10_small plain_buffer) = Ok d /\
    fst (IPFix.SerializeTo (with_FlowSeq packet_v10_small 2) plain_buffer)
    = Ok d2 /\
    exists d', IPFixHeader.SetFlowSeq 0 2 d = Ok (tt, d') /\
               vals d' = vals d2.
Proof.
  assert (Hv : IPFix.Ver packet_v10_small = 9 \/
               IPFix.Ver packet_v10_small = 10) by (right; reflexivity).
  assert (Hb : SerializeBuffer.PrependBytes plain_buffer
                 (fst (IPFix.Len packet_v10_small)) = inr (repeat xff 44))
    by (vm_compute; reflexivity).
  split; [exact Hv|]. split; [exact Hb|].
  exact (SetFlowSeq_as_serialized packet_v10_small 2 plain_buffer
           (repeat xff 44) Hv Hb).
Defined.

(** X11. [IPFixHeader.SetSysUptime] does not look at the version.  On a
    serialized version-9 packet it leaves the bytes of the packet
    serialized with the new system uptime; on a serialized version-10
    packet it overwrites bytes [4:8], where version 10 has its timestamp:
    it leaves the bytes of the packet serialized with that value as
    timestamp. *)
Theorem SetSysUptime_as_serialized
  (i : IPFix.t) (v : Z) (b : SerializeBuffer.t) (data : list byte) :
  IPFix.Ver i = 9 \/ IPFix.Ver i = 10 ->
  SerializeBuffer.PrependBytes b (fst (IPFix.Len i)) = inr data ->
  exists d d2,
    fst (IPFix.SerializeTo i b) = Ok d /\
    fst (IPFix.SerializeTo
           (if IPFix.Ver i =? 9 then with_SysUpTime i v
            else with_Timestamp i v) b) = Ok d2 /\
    exists d', IPFixHeader.SetSysUptime 0 v d = Ok (tt, d') /\
               vals d' = vals d2.
Proof.
  intros Hv Hb. destruct Hv as [Hv|Hv].
  - destruct (SerializeTo_with_header i v (IPFix.Timestamp i)
                (IPFix.FlowSeq i) (IPFix.DomainID i) (IPFix.SourceID i)
                b data (or_introl Hv) Hb)
      as (d & d2 & H1 & H2 & Hlen & Hd & Hd2).
    exists d, d2. split; [exact H1|].
    split; [rewrite Hv; exact H2|].
    patch_header Hv Hlen Hd Hd2 d.
  - destruct (SerializeTo_with_header i (IPFix.SysUpTime i) v
                (IPFix.FlowSeq i) (IPFix.DomainID i) (IPFix.SourceID i)
                b data (or_intror Hv) Hb)
      as (d & d2 & H1 & H2 & Hlen & Hd & Hd2).
    exists d, d2. split; [exact H1|].
    split; [rewrite Hv; exact H2|].
    patch_header Hv Hlen Hd Hd2 d.
Qed.

Lemma SetSysUptime_as_serialized_v10 :
  (IPFix.Ver packet_v10_small = 9 \/ IPFix.Ver packet_v10_small = 10) /\
  SerializeBuffer.PrependBytes plain_buffer (fst (IPFix.Len packet_v10_small))
  = inr (repeat xff 44) /\
  exists d d2,
    fst (IPFix.SerializeTo packet_v10_small plain_buffer) = Ok d /\
    fst (IPFix.SerializeTo (with_Timestamp packet_v10_small 5) plain_buffer)
    = Ok d2 /\
    exists d', IPFixHeader.SetSysUptime 0 5 d = Ok (tt, d') /\
               vals d' = vals d2.
Proof.
  assert (Hv : IPFix.Ver packet_v10_small = 9 \/
               IPFix.Ver packet_v10_small = 10) by (right; reflexivity).
  assert (Hb : SerializeBuffer.PrependBytes plain_buffer
                 (fst (IPFix.Len packet_v10_small)) = inr (repeat xff 44))
    by (vm_compute; reflexivity).
  split; [exact Hv|]. split; [exact Hb|].
  exact (SetSysUptime_as_serialized packet_v10_small 5 plain_buffer
           (repeat xff 44) Hv Hb).
Defined.

(** X12. [IPFixHeader.SetSourceID] applied to the serialized form of a
    version-9 packet succeeds and leaves exactly the bytes that
    serializing the packet with the new source id gives. *)
Theorem SetSourceID_as_serialized
  (i : IPFix.t) (src : Z) (b : SerializeBuffer.t) (data : list byte) :
  IPFix.Ver i = 9 ->
  SerializeBuffer.PrependBytes b (fst (IPFix.Len i)) = inr data ->
  exists d d2,
    fst (IPFix.SerializeTo i b) = Ok d /\
    fst (IPFix.SerializeTo (with_SourceID i src) b) = Ok d2 /\
    exists d', IPFixHeader.SetSourceID 0 src d = Ok (tt, d') /\
               vals d' = vals d2.
Proof.
  intros Hv Hb.
  destruct (SerializeTo_with_header i (IPFix.SysUpTime i) (IPFix.Timestamp i)
              (IPFix.FlowSeq i) (IPFix.DomainID i) src
              b data (or_introl Hv) Hb)
    as (d & d2 & H1 & H2 & Hlen & Hd & Hd2).
  exists d, d2. split; [exact H1|]. split; [exact H2|].
  patch_header Hv Hlen Hd Hd2 d.
Qed.

Lemma SetSourceID_as_serialized_small :
  IPFix.Ver packet_v9_small = 9 /\
  SerializeBuffer.PrependBytes plain_buffer (fst (IPFix.Len packet_v9_small))
  = inr (repeat xff 31) /\
  exists d d2,
    fst (IPFix.SerializeTo packet_v9_small plain_buffer) = Ok d /\
    fst (IPFix.SerializeTo (with_SourceID packet_v9_small 9) plain_buffer)
    = Ok d2 /\
    exists d', IPFixHeader.SetSourceID 0 9 d = Ok (tt, d') /\
               vals d' = vals d2.
Proof.
  assert (Hv : IPFix.Ver packet_v9_small = 9) by reflexivity.
  assert (Hb : SerializeBuffer.PrependBytes plain_buffer
                 (fst (IPFix.Len packet_v9_small)) = inr (repeat xff 31))
    by (vm_compute; reflexivity).
  split; [exact Hv|]. split; [exact Hb|].
  exact (SetSourceID_as_serialized packet_v9_small 9 plain_buffer
           (repeat xff 31) Hv Hb).
Defined.

(** ** The version of a header *)

Lemma header_starts (j : IPFix.t) (rest : list byte) :
  firstn 2 (header j ++ rest) = be16 (IPFix.Ver j).
Proof.
  unfold header.
  destruct (IPFix.Ver j =? 10); [reflexivity|].
  destruct (IPFix.Ver j =? 9); reflexivity.
Qed.

(** X8. [IPFixHeader.GetVer] applied to what [SerializeTo] has written
    returns the version of the packet, whatever the version (as a 16-bit
    value) and the sets, and changes nothing. *)
Theorem GetVer_of_serialized
  (i : IPFix.t) (b : SerializeBuffer.t) (data : list byte) :
  0 <= IPFix.Ver i < 65536 ->
  SerializeBuffer.PrependBytes b (fst (IPFix.Len i)) = inr data ->
  exists d,
    fst (IPFix.SerializeTo i b) = Ok d /\
    IPFixHeader.GetVer 0 d = Ok (IPFix.Ver i, d).
Proof.
  intros Hv Hb.
  destruct (SerializeTo_bytes i b data Hb) as (d & Hrun & Hl & Hvals).
  pose proof (IPFix_Len_nonneg i). pose proof (header_end_pos i).
  exists d. split; [now rewrite Hrun|].
  rewrite GetVer_run by lia.
  rewrite Hvals, header_starts, Uint16_be16, Ver_Len.
  now rewrite Z.mod_small by lia.
Qed.

Lemma GetVer_of_serialized_v5 :
  0 <= IPFix.Ver packet_v5 < 65536 /\
  SerializeBuffer.PrependBytes plain_buffer (fst (IPFix.Len packet_v5))
  = inr (repeat xff 24) /\
  exists d,
    fst (IPFix.SerializeTo packet_v5 plain_buffer) = Ok d /\
    IPFixHeader.GetVer 0 d = Ok (5, d).
Proof.
  assert (Hv : 0 <= IPFix.Ver packet_v5 < 65536)
    by (split; vm_compute; [discriminate|reflexivity]).
  assert (Hb : SerializeBuffer.PrependBytes plain_buffer
                 (fst (IPFix.Len packet_v5)) = inr (repeat xff 24))
    by (vm_compute; reflexivity).
  split; [exact Hv|]. split; [exact Hb|].
  exact (GetVer_of_serialized packet_v5 plain_buffer (repeat xff 24) Hv Hb).
Defined.

Lemma put_store (o lo hi : Z) (bs : list byte) (d : mem) :
  0 <= o + lo -> o + hi <= len d ->
  put o lo hi bs d = Ok (tt, store_at (Z.to_nat (o + lo)) bs d).
Proof.
  intros H1 H2. unfold put.
  replace (0 <=? o + lo) with true by (symmetry; apply Z.leb_le; lia).
  replace (o + hi <=? len d) with true by (symmetry; apply Z.leb_le; lia).
  reflexivity.
Qed.

Lemma store_at_keeps_version (p : nat) (bs : list byte) (d : mem) :
  (2 <= p)%nat ->
  firstn 2 (vals (store_at p bs d)) = firstn 2 (vals d).
Proof.
  intros Hp. unfold vals. rewrite !firstn_map. f_equal.
  now apply firstn_store_at.
Qed.

Lemma bytes_at_middle (p : nat) (xs bs rest : list byte) :
  length xs = p ->
  bytes_at p (p + length bs) (xs ++ bs ++ rest) = bs.
Proof.
  intros <-. unfold bytes_at.
  replace (length xs + length bs - length xs)%nat with (length bs) by lia.
  rewrite skipn_app, skipn_all, Nat.sub_diag. simpl.
  rewrite firstn_app, firstn_all, Nat.sub_diag. simpl. apply app_nil_r.
Qed.

(** X13. On a header of at least 20 bytes every setter succeeds, keeps
    the length of the region and keeps the version: [GetVer] returns
    afterwards what it returned before.  After [SetLength] or [SetCount]
    bytes [2:4] read back as the value modulo 2^16. *)
Theorem header_setters_keep_version (d : mem) (v : Z) :
  20 <= len d ->
  (forall m, In m (header_setters v) ->
     exists d',
       m d = Ok (tt, d') /\
       len d' = len d /\
       IPFixHeader.GetVer 0 d' = Ok (Uint16 (firstn 2 (vals d)), d')) /\
  (forall m, In m [IPFixHeader.SetLength 0 v; IPFixHeader.SetCount 0 v] ->
     exists d',
       m d = Ok (tt, d') /\
       Uint16 (bytes_at 2 4 (vals d')) = v mod 65536).
Proof.
  intros Hd.
  assert (G : forall o lo hi bs, 2 <= o + lo -> o + hi <= len d ->
      exists d', put o lo hi bs d = Ok (tt, d') /\ len d' = len d /\
                 IPFixHeader.GetVer 0 d'
                 = Ok (Uint16 (firstn 2 (vals d)), d')).
  { intros o lo hi bs H1 H2. eexists.
    split; [apply put_store; lia|]. split; [apply store_at_len|].
    rewrite GetVer_run by (rewrite store_at_len; lia).
    rewrite store_at_keeps_version by lia. reflexivity. }
  split.
  - intros m Hm. unfold header_setters in Hm. simpl in Hm.
    destruct Hm as [<-|[<-|[<-|[<-|[<-|[<-|[]]]]]]];
      unfold IPFixHeader.SetLength, IPFixHeader.SetCount,
        IPFixHeader.SetSysUptime, IPFixHeader.SetSourceID,
        IPFixHeader.SetTimestamp, IPFixHeader.SetFlowSeq,
        PutUint16, PutUint32, bind;
      rewrite ?GetVer_run by lia;
      try (destruct (Uint16 (firstn 2 (vals d)) =? 9));
      apply G; lia.
  - intros m Hm. simpl in Hm.
    destruct Hm as [<-|[<-|[]]];
      unfold IPFixHeader.SetLength, IPFixHeader.SetCount, PutUint16;
      (destruct (put_run 0 2 4 (be16 v) d) as (d' & Hp & _ & Hv');
       [lia|lia|reflexivity|]);
      exists d'; (split; [exact Hp|]);
      rewrite Hv';
      rewrite (bytes_at_middle 2 _ (be16 v))
        by (rewrite length_firstn; pose proof (len_vals d);
            unfold len in *; lia);
      apply Uint16_be16.
Qed.

Lemma header_setters_keep_version_small :
  20 <= len (fresh (repeat xff 20)) /\
  exists d',
    IPFixHeader.SetFlowSeq 0 7 (fresh (repeat xff 20)) = Ok (tt, d') /\
    len d' = len (fresh (repeat xff 20)) /\
    IPFixHeader.GetVer 0 d' = Ok (65535, d').
Proof.
  assert (Hd : 20 <= len (fresh (repeat xff 20)))
    by (vm_compute; discriminate).
  split; [exact Hd|].
  apply (proj1 (header_setters_keep_version (fresh (repeat xff 20)) 7 Hd)
               (IPFixHeader.SetFlowSeq 0 7)).
  unfold header_setters. simpl. tauto.
Defined.

Lemma store_at_nil_r (p : nat) (bs : list byte) : store_at p bs [] = [].
Proof.
  unfold store_at. now rewrite firstn_nil, skipn_nil, poke_nil_r.
Qed.

Lemma poke_store_at_comm (xs ys : list byte) :
  forall q d, (length xs <= q)%nat ->
              poke xs (store_at q ys d) = store_at q ys (poke xs d).
Proof.
  induction xs as [|x xs IH]; intros q d Hq.
  - reflexivity.
  - destruct q as [|q]; simpl in Hq; [lia|].
    destruct d as [|c d].
    + now rewrite store_at_nil_r, poke_nil_r, store_at_nil_r.
    + rewrite store_at_S. simpl poke. rewrite store_at_S.
      f_equal. apply IH. lia.
Qed.

Lemma store_at_comm (xs ys : list byte) :
  forall p q d, (p + length xs <= q)%nat ->
                store_at p xs (store_at q ys d)
                = store_at q ys (store_at p xs d).
Proof.
  induction p as [|p IH]; intros q d Hq.
  - rewrite !store_at_0. apply poke_store_at_comm. lia.
  - destruct q as [|q]; [lia|].
    destruct d as [|c d].
    + now rewrite !store_at_nil_r.
    + rewrite !store_at_S. f_equal. apply IH. lia.
Qed.

(** X14. [SetTimestamp] and [SetFlowSeq] commute: on a header of at least
    16 bytes the two orders succeed and leave the same region. *)
Theorem SetTimestamp_SetFlowSeq_commute (d : mem) (ts fs : Z) :
  16 <= len d ->
  exists d',
    (IPFixHeader.SetTimestamp 0 ts ;; IPFixHeader.SetFlowSeq 0 fs) d
    = Ok (tt, d') /\
    (IPFixHeader.SetFlowSeq 0 fs ;; IPFixHeader.SetTimestamp 0 ts) d
    = Ok (tt, d').
Proof.
  intros Hd.
  unfold IPFixHeader.SetTimestamp, IPFixHeader.SetFlowSeq, PutUint32.
  unfold bind. rewrite GetVer_run by lia.
  destruct (Uint16 (firstn 2 (vals d)) =? 9) eqn:E;
    rewrite !put_store by lia;
    rewrite !GetVer_run by (rewrite store_at_len; lia);
    rewrite !store_at_keeps_version by (simpl; lia);
    rewrite E;
    rewrite !put_store by (rewrite ?store_at_len; lia);
    eexists; (split; [reflexivity|]);
    do 2 f_equal; apply store_at_comm; simpl; lia.
Qed.

Lemma SetTimestamp_SetFlowSeq_commute_small :
  16 <= len (fresh (repeat x00 16)) /\
  exists d',
    (IPFixHeader.SetTimestamp 0 1 ;; IPFixHeader.SetFlowSeq 0 2)
      (fresh (repeat x00 16)) = Ok (tt, d') /\
    (IPFixHeader.SetFlowSeq 0 2 ;; IPFixHeader.SetTimestamp 0 1)
      (fresh (repeat x00 16)) = Ok (tt, d').
Proof.
  assert (Hd : 16 <= len (fresh (repeat x00 16)))
    by (vm_compute; discriminate).
  split; [exact Hd|].
  exact (SetTimestamp_SetFlowSeq_commute (fresh (repeat x00 16)) 1 2 Hd).
Defined.

(** * Properties of the JSON-RPC transport *)

Lemma Z_of_byte_bracket (c : byte) : Z_of_byte c = 91 <-> c = x5b.
Proof.
  split.
  - destruct c; intros H; try reflexivity; vm_compute in H; discriminate.
  - intros ->. reflexivity.
Qed.

Lemma Z_of_byte_range (c : byte) : 0 <= Z_of_byte c < 256.
Proof.
  unfold Z_of_byte. pose proof (Byte.to_N_bounded c). lia.
Qed.







